(** * bitwriter: a sequential writer over a fixed-length byte buffer

    Shallow embedding of [src/index.js] and verification of its
    specification.  The writer is a record holding the owned buffer, the
    cursor and the endianness; every operation is a computation in a small
    state-and-exception monad, so that the state a JavaScript [throw] leaves
    behind is part of the result.

    Numbers are integers ([Z]); a buffer is the list of its bytes, each in
    [0, 255]; a string is the sequence of its encoded bytes; an options
    object is a finite map from property names to values. *)

From stdpp Require Import base gmap list strings.
From Stdlib Require Import ZArith Lia.

Local Open Scope Z_scope.

(** ** JavaScript values that reach the writer *)

(** Values found in option objects and in array elements: [undefined],
    booleans and (integer) numbers. *)
Inductive jsval : Type :=
  | JUndef
  | JBool (b : bool)
  | JNum (z : Z).

Global Instance jsval_eq_dec : EqDecision jsval.
Proof. solve_decision. Defined.

(** Truthiness, as tested by [if (x)] and [a && b]. *)
Definition truthy (v : jsval) : bool :=
  match v with
  | JUndef => false
  | JBool b => b
  | JNum z => negb (z =? 0)
  end.

(** The number a value stands for in arithmetic and comparisons; only
    used on truthy values ([true] is 1). *)
Definition to_number (v : jsval) : Z :=
  match v with
  | JNum z => z
  | JBool true => 1
  | _ => 0
  end.

(** [o.k]: reading an absent property yields [undefined]. *)
Definition prop (o : gmap string jsval) (k : string) : jsval :=
  default JUndef (o !! k).

(** [opts && opts.k] for an optional options argument. *)
Definition opt_prop (opts : option (gmap string jsval)) (k : string) : jsval :=
  match opts with
  | Some o => prop o k
  | None => JUndef
  end.

(** ** Errors *)

(** Modelled from the spec: lib/errors.js, the error factory, is not part of
    the sources; it only builds a typed error value, one per kind listed in
    the error handling design.  [ReferenceError] is the language's own error
    for an unbound identifier and [HostError] stands for whatever the
    platform's [Buffer] raises (assertion failures, out-of-bounds). *)
Inductive error : Type :=
  | RangeError
  | SizeError
  | DispatchError
  | OverflowError
  | ArrayTypeError
  | ReferenceError
  | HostError.

Global Instance error_eq_dec : EqDecision error.
Proof. solve_decision. Defined.

(** ** Ranges *)

(** Modelled from the spec: lib/range.js is not part of the sources; a range
    is given by inclusive bounds [min, max] and exposes a membership test. *)
Module Range.
Record range : Type := Range { min : Z; max : Z }.

Definition test (r : range) (v : Z) : bool :=
  (min r <=? v) && (v <=? max r).
End Range.

Definition between (v min max : Z) : bool := (min <=? v) && (v <=? max).
Definition gentestInt (min max : Z) : Z -> bool := fun v => between v min max.

(** [BitWriter.UNSIGNED_RANGE], indexed by width; the table has the keys
    8, 16 and 32 and is only ever read at 8 and 32. *)
Definition UNSIGNED_RANGE (bits : Z) : Range.range :=
  if bits =? 8 then Range.Range (-0x80) 0xff
  else if bits =? 16 then Range.Range (-0x8000) 0xffff
  else Range.Range (-0x80000000) 0xffffffff.

Definition INT_SIZES : list Z := [8; 16; 32].
Definition NULL_BYTE : list Z := [0x00].

(** ** The platform's Buffer

    The writer targets the Node.js [Buffer] of the 0.8 line (it relies on
    [parent], [offset], [get] and [set]).  Only the primitives the writer
    calls are modelled, with their checks in the order the platform makes
    them. *)

Inductive endianness : Type := BE | LE.

Global Instance endianness_eq_dec : EqDecision endianness.
Proof. solve_decision. Defined.

(** The integer writers of [Buffer.prototype]. *)
Inductive bufmethod : Type :=
  | writeUInt8
  | writeUInt16 (e : endianness)
  | writeUInt32 (e : endianness)
  | writeInt8
  | writeInt16 (e : endianness)
  | writeInt32 (e : endianness).

Global Instance bufmethod_eq_dec : EqDecision bufmethod.
Proof. solve_decision. Defined.

Module Buffer.

(** [Buffer(n)] followed by [fill(0)]. *)
Definition zeroed (n : nat) : list Z := replicate n 0.

(** [buf.fill(0)]. *)
Definition fill0 (b : list Z) : list Z := replicate (length b) 0.

(** [Buffer(string)]: the encoded bytes of the text. *)
Fixpoint from_string (s : string) : list Z :=
  match s with
  | EmptyString => []
  | String a rest => Z.of_N (Ascii.N_of_ascii a) :: from_string rest
  end.

(** Byte width, bounds and byte order of each integer writer. *)
Definition width (m : bufmethod) : nat :=
  match m with
  | writeUInt8 | writeInt8 => 1%nat
  | writeUInt16 _ | writeInt16 _ => 2%nat
  | writeUInt32 _ | writeInt32 _ => 4%nat
  end.

Definition lower (m : bufmethod) : Z :=
  match m with
  | writeUInt8 | writeUInt16 _ | writeUInt32 _ => 0
  | writeInt8 => -0x80
  | writeInt16 _ => -0x8000
  | writeInt32 _ => -0x80000000
  end.

Definition upper (m : bufmethod) : Z :=
  match m with
  | writeUInt8 => 0xff
  | writeUInt16 _ => 0xffff
  | writeUInt32 _ => 0xffffffff
  | writeInt8 => 0x7f
  | writeInt16 _ => 0x7fff
  | writeInt32 _ => 0x7fffffff
  end.

Definition signed (m : bufmethod) : bool :=
  match m with
  | writeUInt8 | writeUInt16 _ | writeUInt32 _ => false
  | writeInt8 | writeInt16 _ | writeInt32 _ => true
  end.

Definition order (m : bufmethod) : endianness :=
  match m with
  | writeUInt8 | writeInt8 => BE
  | writeUInt16 e | writeUInt32 e | writeInt16 e | writeInt32 e => e
  end.

(** The [n] low bytes of [v], least significant first; a negative [v]
    comes out in two's complement. *)
Fixpoint le_bytes (n : nat) (v : Z) : list Z :=
  match n with
  | O => []
  | S n' => v `mod` 256 :: le_bytes n' (v `div` 256)
  end.

Definition encode (m : bufmethod) (v : Z) : list Z :=
  match order m with
  | LE => le_bytes (width m) v
  | BE => reverse (le_bytes (width m) v)
  end.

(** [method.call(buf, value, offset)] with assertions on: the offset must
    leave room for the whole value, the value must be a number within the
    bounds of the type; only then are the bytes stored.  The writer never
    passes a negative offset (its cursor starts at 0 and only [position],
    which refuses negative values, and [_pos++] change it); such a call is
    refused here. *)
Definition write (m : bufmethod) (b : list Z) (value : jsval) (offset : Z)
  : error + list Z :=
  if negb ((0 <=? offset) && (offset + Z.of_nat (width m) <=? Z.of_nat (length b)))
  then inl HostError
  else match value with
       | JNum v =>
           if negb ((lower m <=? v) && (v <=? upper m)) then inl HostError
           else inr (list_inserts (Z.to_nat offset) (encode m v) b)
       | _ => inl HostError
       end.

(** [source.copy(target, target_start)]: nothing to do for an empty source
    or target; a start outside the target is refused; otherwise as many
    bytes as fit are copied. *)
Definition copy (source target : list Z) (target_start : Z) : error + list Z :=
  if (length source =? 0)%nat || (length target =? 0)%nat then inr target
  else if (target_start <? 0) || (Z.of_nat (length target) <=? target_start)
  then inl HostError
  else
    let room := (length target - Z.to_nat target_start)%nat in
    inr (list_inserts (Z.to_nat target_start) (take room source) target).

(** [buf.slice(start, end)]. *)
Definition slice (b : list Z) (start end_ : Z) : error + list Z :=
  if Z.of_nat (length b) <? end_ then inl HostError
  else if end_ <? start then inl HostError
  else inr (take (Z.to_nat (end_ - start)) (drop (Z.to_nat start) b)).

(** [Buffer.concat([a, b])]. *)
Definition concat (bs : list (list Z)) : list Z := mjoin bs.

(** [buf.get(i)] and [buf.set(i, v)]; the store keeps the low eight bits. *)
Definition get (b : list Z) (i : nat) : option Z := b !! i.
Definition set (b : list Z) (i : nat) (v : Z) : list Z := <[i := v `mod` 256]> b.

End Buffer.

(** ** The writer *)

Record BitWriter : Type := mkBitWriter {
  _buffer : list Z;
  _pos : Z;
  _endianness : endianness;
}.

(** [this.length], fixed at construction to the length of the buffer. *)
Definition length_ (w : BitWriter) : Z := Z.of_nat (length (_buffer w)).

(** [initialize(length, endianness)]: zero-filled buffer, cursor at 0,
    big-endian unless told otherwise. *)
Definition initialize (len : nat) (e : option endianness) : BitWriter :=
  {| _buffer := Buffer.zeroed len;
     _pos := 0;
     _endianness := default BE e |}.

Definition out (w : BitWriter) : list Z := _buffer w.

(** *** Computations on a writer *)

Definition M (A : Type) : Type := BitWriter -> (error + A) * BitWriter.

Definition ret {A} (a : A) : M A := fun w => (inr a, w).
Definition throw {A} (e : error) : M A := fun w => (inl e, w).
Definition bind {A B} (m : M A) (k : A -> M B) : M B :=
  fun w =>
    match m w with
    | (inr a, w') => k a w'
    | (inl e, w') => (inl e, w')
    end.

Notation "x <- m ;; k" := (bind m (fun x => k))
  (at level 100, m at next level, right associativity).
Notation "m ;;; k" := (bind m (fun _ => k))
  (at level 100, right associativity).

(** A platform call on [this._buffer]: its result replaces the buffer, its
    failure is thrown with the buffer as it was. *)
Definition on_buffer (f : list Z -> error + list Z) : M unit :=
  fun w =>
    match f (_buffer w) with
    | inr b => (inr tt, {| _buffer := b; _pos := _pos w; _endianness := _endianness w |})
    | inl e => (inl e, w)
    end.

(** *** Cursor and capacity *)

Definition remaining (w : BitWriter) : Z := length_ w - _pos w.

Definition full (w : BitWriter) : bool := remaining w =? 0.

(** [position()] *)
Definition get_position : M Z := fun w => (inr (_pos w), w).

(** [position(p)] *)
Definition position (p : Z) : M unit :=
  fun w =>
    if (length_ w <? p) || (p <? 0) then throw RangeError w
    else (inr tt, {| _buffer := _buffer w; _pos := p; _endianness := _endianness w |}).

Definition move (amount : Z) : M unit :=
  pos <- get_position ;; position (pos + amount).

Definition reset : M unit :=
  on_buffer (fun b => inr (Buffer.fill0 b)) ;;; position 0.

(** *** The method table *)

Record entry : Type := mkEntry {
  method : bufmethod;
  byte_length : Z;
  lo : Z;
  hi : Z;
}.

Global Instance entry_eq_dec : EqDecision entry.
Proof. solve_decision. Defined.

(** [m.test(v)], the closure built by [gentestInt(lo, hi)]. *)
Definition test (m : entry) : Z -> bool := gentestInt (lo m) (hi m).

Definition _generateMethodTable (e : endianness) : list entry :=
  [ mkEntry writeUInt8 1 0 0xff;
    mkEntry (writeUInt16 e) 2 0 0xffff;
    mkEntry (writeUInt32 e) 4 0 0xffffffff;
    mkEntry writeInt8 1 (-0x80) 0x7f;
    mkEntry (writeInt16 e) 2 (-0x8000) 0x7fff;
    mkEntry (writeInt32 e) 4 (-0x80000000) 0x7fffffff ].

Definition _methods (w : BitWriter) : list entry :=
  _generateMethodTable (_endianness w).

(** [_methods.bySize[signedness][size]] *)
Definition bySize (table : list entry) (unsigned : bool) (size : Z) : option entry :=
  let base := if unsigned then 0%nat else 3%nat in
  if size =? 8 then table !! base
  else if size =? 16 then table !! (base + 1)%nat
  else if size =? 32 then table !! (base + 2)%nat
  else None.

(** *** Integer write *)

(** [~validSizes.indexOf(size)]: strict equality with 8, 16 or 32. *)
Definition valid_size (size : jsval) : bool :=
  match size with
  | JNum z => bool_decide (z ∈ INT_SIZES)
  | _ => false
  end.

(** The first half of [writeInt]: the range check and the selection of the
    method-table entry, up to the dispatch error. *)
Definition writeInt_type (table : list entry) (integer : Z)
    (opts : option (gmap string jsval)) : error + entry :=
  let range := UNSIGNED_RANGE 32 in
  if negb (Range.test range integer) then inl RangeError
  else
    let size := opt_prop opts "size" in
    if truthy size then
      if negb (valid_size size) then inl SizeError
      else
        match bySize table (0 <? integer) (to_number size) with
        | Some type => inr type
        | None => inl DispatchError
        end
    else
      match head (List.filter (fun m => test m integer) table) with
      | Some type => inr type
      | None => inl DispatchError
      end.

Definition writeInt (integer : Z) (opts : option (gmap string jsval)) : M unit :=
  fun w =>
    match writeInt_type (_methods w) integer opts with
    | inl e => throw e w
    | inr type =>
        let remaining := remaining w in
        if remaining <? byte_length type then throw OverflowError w
        else
          (pos <- get_position ;;
           on_buffer (fun b => Buffer.write (method type) b (JNum integer) pos) ;;;
           move (byte_length type)) w
    end.

(** *** Raw write *)

Inductive raw : Type :=
  | Buf (b : list Z)
  | Arr (l : list jsval).

Definition _copyBuffer (buf : list Z) : M unit :=
  pos <- get_position ;;
  on_buffer (fun b => Buffer.copy buf b pos) ;;;
  move (Z.of_nat (length buf)).

(** [this._pos++] *)
Definition post_increment_pos : M Z :=
  fun w => (inr (_pos w),
            {| _buffer := _buffer w; _pos := _pos w + 1; _endianness := _endianness w |}).

(** The loop of the [safe] path: no check, one [writeUInt8] per element at
    the post-incremented cursor. *)
Fixpoint writeRaw_safe (arry : list jsval) : M unit :=
  match arry with
  | [] => ret tt
  | x :: rest =>
      n <- post_increment_pos ;;
      on_buffer (fun b => Buffer.write writeUInt8 b x n) ;;;
      writeRaw_safe rest
  end.

(** The validation loop: the first element that is not a number, or not in
    the eight-bit range, decides the error. *)
Fixpoint writeRaw_check (eightBitRange : Range.range) (arry : list jsval) : option error :=
  match arry with
  | [] => None
  | JNum z :: rest =>
      if negb (Range.test eightBitRange z) then Some RangeError
      else writeRaw_check eightBitRange rest
  | _ :: _ => Some ArrayTypeError
  end.

(** After a successful validation the source calls
    [this.writeRaw(array, { safe: true })]; [array] is not bound anywhere
    (the parameter is [arry]), so evaluating the argument throws. *)
Definition writeRaw (arry : raw) (opts : option (gmap string jsval)) : M unit :=
  match arry with
  | Buf b => _copyBuffer b
  | Arr l =>
      if bool_decide (opt_prop opts "safe" = JBool true) then writeRaw_safe l
      else
        let eightBitRange := UNSIGNED_RANGE 8 in
        match writeRaw_check eightBitRange l with
        | Some e => throw e
        | None => throw ReferenceError
        end
  end.

(** *** Generic write and string write *)

Inductive data : Type :=
  | Str (s : string)
  | Raw (r : raw)
  | Num (z : Z).

(** [write] on anything but a string: arrays and buffers go to [writeRaw],
    the rest to [writeInt].  [writeString] calls [this.write] on buffers
    only, hence through this part of [write]. *)
Definition write_other (d : raw + Z) (opts : option (gmap string jsval)) : M unit :=
  match d with
  | inl r => writeRaw r opts
  | inr z => writeInt z opts
  end.

(** The options [writeString] works with: a fresh object when none is
    given, and [null] set to [true] on the object when the key is absent. *)
Definition writeString_opts (opts : option (gmap string jsval)) : gmap string jsval :=
  let o := default ∅ opts in
  if bool_decide (is_Some (o !! "null")) then o else <["null" := JBool true]> o.

Definition writeString_body (s : string) (o : gmap string jsval) : M unit :=
  let buf := Buffer.from_string s in
  let len := Z.of_nat (length buf) in
  if truthy (prop o "size") then
    let size := to_number (prop o "size") in
    if size <? len then
      match Buffer.slice buf 0 size with
      | inl e => throw e
      | inr b => write_other (inl (Buf b)) None
      end
    else
      let nulls := Buffer.zeroed (Z.to_nat (size - len)) in
      write_other (inl (Buf (Buffer.concat [buf; nulls]))) None
  else
    fun w =>
      if remaining w <? len then throw OverflowError w
      else
        (write_other (inl (Buf buf)) None ;;;
         fun w' =>
           if negb (bool_decide (prop o "null" = JBool false)) && (0 <? remaining w')
           then write_other (inl (Buf NULL_BYTE)) None w'
           else ret tt w') w.

(** A call with an options argument returns, next to the outcome and the
    writer, the caller's options object as the call leaves it: the object
    is shared with the callee, which may assign to it. *)
Definition call (A : Type) : Type :=
  ((error + A) * BitWriter) * option (gmap string jsval).

Definition writeString (s : string) (opts : option (gmap string jsval))
    (w : BitWriter) : call unit :=
  let o := writeString_opts opts in
  (writeString_body s o w, (fun _ => o) <$> opts).

Definition write (d : data) (opts : option (gmap string jsval))
    (w : BitWriter) : call unit :=
  match d with
  | Str s => writeString s opts w
  | Raw r => (write_other (inl r) opts w, opts)
  | Num z => (write_other (inr z) opts w, opts)
  end.

Definition write8 (v : data) : BitWriter -> call unit :=
  write v (Some {["size" := JNum 8]}).
Definition write16 (v : data) : BitWriter -> call unit :=
  write v (Some {["size" := JNum 16]}).
Definition write32 (v : data) : BitWriter -> call unit :=
  write v (Some {["size" := JNum 32]}).

(** *** Indexed access *)

(** The accessors [_makeArrayLike] defines for each [n] below the length;
    other indices have no accessor: reading gives nothing and assigning
    does not reach the buffer. *)
Definition _makeArrayLike_get (n : nat) (w : BitWriter) : option Z :=
  if bool_decide (n < length (_buffer w))%nat then Buffer.get (_buffer w) n
  else None.

Definition _makeArrayLike_set (n : nat) (v : Z) : M unit :=
  fun w =>
    if bool_decide (n < length (_buffer w))%nat then
      let eightBitRange := UNSIGNED_RANGE 8 in
      if negb (Range.test eightBitRange v) then throw RangeError w
      else on_buffer (fun b => inr (Buffer.set b n v)) w
    else ret tt w.

(** ** Operations, for statements over all of them *)

Inductive operation : Type :=
  | OpWrite (d : data) (opts : option (gmap string jsval))
  | OpWriteInt (integer : Z) (opts : option (gmap string jsval))
  | OpWriteString (s : string) (opts : option (gmap string jsval))
  | OpWriteRaw (arry : raw) (opts : option (gmap string jsval))
  | OpPosition (p : Z)
  | OpMove (amount : Z)
  | OpReset
  | OpIndexSet (n : nat) (v : Z).

Definition run (o : operation) (w : BitWriter) : (error + unit) * BitWriter :=
  match o with
  | OpWrite d opts => fst (write d opts w)
  | OpWriteInt i opts => writeInt i opts w
  | OpWriteString s opts => fst (writeString s opts w)
  | OpWriteRaw a opts => writeRaw a opts w
  | OpPosition p => position p w
  | OpMove a => move a w
  | OpReset => reset w
  | OpIndexSet n v => _makeArrayLike_set n v w
  end.

(** Whether the operation is, or dispatches to, [writeRaw] on an array with
    [safe: true]. *)
Definition safe_array_write (o : operation) : bool :=
  match o with
  | OpWrite (Raw (Arr _)) opts | OpWriteRaw (Arr _) opts =>
      bool_decide (opt_prop opts "safe" = JBool true)
  | _ => false
  end.

(** The writers a program can get hold of: a fresh one, and whatever an
    operation leaves behind, whether it returned or threw. *)
Inductive reachable : BitWriter -> Prop :=
  | reachable_initialize (n : nat) (e : option endianness) :
      reachable (initialize n e)
  | reachable_run (o : operation) (w : BitWriter) :
      reachable w -> reachable (snd (run o w)).

(** ** Notions used in the statements *)

(** The length of what a raw write is given. *)
Definition raw_length (r : raw) : Z :=
  match r with
  | Buf b => Z.of_nat (length b)
  | Arr l => Z.of_nat (length l)
  end.

(** The terminator of an unsized string write: one zero byte unless [null]
    is explicitly [false] or the text fills the buffer exactly. *)
Definition terminator (null : jsval) (len room : Z) : list Z :=
  if bool_decide (null = JBool false) then []
  else if len <? room then NULL_BYTE else [].

(** The calls that validate in full before they mutate: integer writes,
    string writes without a size, and array writes that are not marked
    [safe]. *)
Definition validates_first (d : data) (opts : option (gmap string jsval)) : bool :=
  match d with
  | Num _ => true
  | Str _ => negb (truthy (opt_prop opts "size"))
  | Raw (Arr _) => negb (bool_decide (opt_prop opts "safe" = JBool true))
  | Raw (Buf _) => false
  end.

(** The number of bytes a successful call encodes. *)
Definition encoded_length (d : data) (opts : option (gmap string jsval))
    (w : BitWriter) : Z :=
  match d with
  | Num v =>
      match writeInt_type (_methods w) v opts with
      | inr m => byte_length m
      | inl _ => 0
      end
  | Raw r => raw_length r
  | Str s =>
      let len := Z.of_nat (length (Buffer.from_string s)) in
      if truthy (opt_prop opts "size") then to_number (opt_prop opts "size")
      else len + Z.of_nat (length (terminator (opt_prop opts "null") len (remaining w)))
  end.

(** [m] takes every writer to one related to it by [I], whether it returns
    or throws. *)
Definition preserves (I : BitWriter -> BitWriter -> Prop) {A} (m : M A) : Prop :=
  forall w, I w (snd (m w)).

(** The buffer keeps its length and the cursor stays non-negative. *)
Definition sized (w w' : BitWriter) : Prop :=
  length (_buffer w') = length (_buffer w)
  /\ _endianness w' = _endianness w
  /\ (0 <= _pos w -> 0 <= _pos w').

(** In addition, a cursor within the buffer stays within the buffer. *)
Definition bounded (w w' : BitWriter) : Prop :=
  sized w w' /\ (0 <= _pos w <= length_ w -> _pos w' <= length_ w').

(** Whenever [m] returns, [remaining()] has gone down by [n]. *)
Definition advances {A} (m : M A) (n : Z) : Prop :=
  forall w a w', m w = (inr a, w') -> remaining w' = remaining w - n.

(** ** Attachment *)

(** The own enumerable keys of [BitWriter.prototype], in the order the
    source assigns them. *)
Definition prototype_keys : list string :=
  [ "initialize"; "out"; "write"; "writeInt"; "writeString"; "writeRaw";
    "remaining"; "attach"; "write8"; "write16"; "write32"; "full";
    "position"; "reset"; "move"; "_copyBuffer"; "_generateMethodTable";
    "_makeArrayLike" ].

(** A property of the object handed to [attach]: an ordinary value, or
    [this[method].bind(this)] for a receiver [this]. *)
Inductive member (R : Type) : Type :=
  | Plain (v : jsval)
  | Bound (this : R) (method : string).

Arguments Plain {R} v.
Arguments Bound {R} this method.

(** [attach(obj)]: every prototype key matching [/^write/] is assigned on
    [obj], bound to the writer. *)
Definition attach {R} (this : R) (obj : gmap string (member R)) : gmap string (member R) :=
  foldl (fun o method => <[method := Bound this method]> o) obj
    (List.filter (String.prefix "write") prototype_keys).

(** ** Further notions used in the statements *)

(** The same writer under another byte order. *)
Definition with_endianness (e : endianness) (w : BitWriter) : BitWriter :=
  {| _buffer := _buffer w; _pos := _pos w; _endianness := e |}.

(** The [n] bytes of the buffer from offset [start]. *)
Definition window (w : BitWriter) (start n : Z) : list Z :=
  take (Z.to_nat n) (drop (Z.to_nat start) (_buffer w)).

(** The number a little-endian byte sequence stands for. *)
Definition le_value (bs : list Z) : Z :=
  foldr (fun b acc => b + 256 * acc) 0 bs.

(** Reading back what an integer writer of the platform stored: the bytes
    in the order of the writer, as an unsigned number or in two's
    complement. *)
Definition decode (m : bufmethod) (bs : list Z) : Z :=
  let u := le_value (match Buffer.order m with LE => bs | BE => reverse bs end) in
  let bits := 8 * Z.of_nat (Buffer.width m) in
  if Buffer.signed m && (2 ^ (bits - 1) <=? u) then u - 2 ^ bits else u.

(** What is before the cursor stays, and the cursor does not go back. *)
Definition appended (w w' : BitWriter) : Prop :=
  0 <= _pos w ->
  _pos w <= _pos w'
  /\ forall k : nat, Z.of_nat k < _pos w -> _buffer w' !! k = _buffer w !! k.

(** [m] does not look at the endianness of the writer. *)
Definition endian_blind {A} (m : M A) : Prop :=
  forall (e : endianness) (w : BitWriter),
    m (with_endianness e w) = (fst (m w), with_endianness e (snd (m w))).

(** The platform writer of the same width and signedness for the byte
    order [e], and the table entry naming it. *)
Definition retarget_method (e : endianness) (m : bufmethod) : bufmethod :=
  match m with
  | writeUInt8 => writeUInt8
  | writeUInt16 _ => writeUInt16 e
  | writeUInt32 _ => writeUInt32 e
  | writeInt8 => writeInt8
  | writeInt16 _ => writeInt16 e
  | writeInt32 _ => writeInt32 e
  end.

Definition retarget (e : endianness) (m : entry) : entry :=
  mkEntry (retarget_method e (method m)) (byte_length m) (lo m) (hi m).

(** ** The examples of the specification *)

Example ex_write_300 :
  fst (write (Num 300) None (initialize 4 None))
  = (inr tt, {| _buffer := [1; 44; 0; 0]; _pos := 2; _endianness := BE |}).
Proof. reflexivity. Qed.

Example ex_hi :
  fst (write (Str "hi") None (initialize 5 None))
  = (inr tt, {| _buffer := [104; 105; 0; 0; 0]; _pos := 3; _endianness := BE |}).
Proof. reflexivity. Qed.

Example ex_raw :
  writeRaw (Arr [JNum 1; JNum 2; JNum 300]) None (initialize 4 None)
  = (inl RangeError, initialize 4 None).
Proof. reflexivity. Qed.

(** Three one-byte writes fill a writer of length 3; a fourth overflows. *)
Example ex_three_then_overflow :
  let w3 := snd (fst (write (Num 30) None
              (snd (fst (write (Num 20) None
                 (snd (fst (write (Num 10) None (initialize 3 None)))))))))
  in
  w3 = {| _buffer := [10; 20; 30]; _pos := 3; _endianness := BE |}
  /\ full w3 = true
  /\ fst (write (Num 1) None w3) = (inl OverflowError, w3).
Proof. vm_compute. repeat split. Qed.

Example ex_little_endian :
  fst (write (Num (-2)) (Some {["size" := JNum 16]}) (initialize 2 (Some LE)))
  = (inr tt, {| _buffer := [254; 255]; _pos := 2; _endianness := LE |}).
Proof. vm_compute. reflexivity. Qed.

(** * Verification *)

(** ** Proof support *)

(** Decide the integer comparisons in the goal, dropping impossible cases. *)
Ltac zcases :=
  repeat match goal with
    | |- context [?a <=? ?b] => destruct (Z.leb_spec a b); try lia
    | |- context [?a <? ?b] => destruct (Z.ltb_spec a b); try lia
    | |- context [?a =? ?b] => destruct (Z.eqb_spec a b); try lia
    end.

(** Membership in a list given by its elements. *)
Ltac in_table :=
  repeat first [ apply list_elem_of_here | apply list_elem_of_further ].

Lemma write_num_is_writeInt (v : Z) (opts : option (gmap string jsval)) (w : BitWriter) :
  fst (write (Num v) opts w) = writeInt v opts w.
Proof. reflexivity. Qed.

Lemma length_le_bytes (n : nat) (v : Z) : length (Buffer.le_bytes n v) = n.
Proof. revert v. induction n as [|n IH]; intros v; simpl; [done | by rewrite IH]. Qed.

Lemma length_encode (m : bufmethod) (v : Z) : length (Buffer.encode m v) = Buffer.width m.
Proof.
  unfold Buffer.encode. destruct (Buffer.order m).
  - by rewrite length_reverse, length_le_bytes.
  - apply length_le_bytes.
Qed.

(** Every entry of the table agrees with the platform writer it names. *)
Lemma table_consistent (e : endianness) (m : entry) :
  m ∈ _generateMethodTable e ->
  byte_length m = Z.of_nat (Buffer.width (method m))
  /\ lo m = Buffer.lower (method m) /\ hi m = Buffer.upper (method m).
Proof.
  unfold _generateMethodTable. intros H.
  repeat (apply elem_of_cons in H as [-> | H]; [by simpl |]).
  by apply elem_of_nil in H.
Qed.

(** What [writeInt] does once an entry is selected. *)
Lemma writeInt_selected (v : Z) (opts : option (gmap string jsval)) (w : BitWriter) (m : entry) :
  writeInt_type (_methods w) v opts = inr m ->
  writeInt v opts w =
    if remaining w <? byte_length m then (inl OverflowError, w)
    else
      match Buffer.write (method m) (_buffer w) (JNum v) (_pos w) with
      | inl e => (inl e, w)
      | inr b =>
          position (_pos w + byte_length m)
            {| _buffer := b; _pos := _pos w; _endianness := _endianness w |}
      end.
Proof.
  intros Hsel. unfold writeInt. rewrite Hsel.
  destruct (remaining w <? byte_length m); [done |].
  unfold bind, get_position, on_buffer, move; simpl.
  destruct (Buffer.write _ _ _ _); done.
Qed.

Lemma auto_select (e : endianness) (v : Z) (opts : option (gmap string jsval)) :
  - 2 ^ 31 <= v < 2 ^ 32 ->
  truthy (opt_prop opts "size") = false ->
  writeInt_type (_generateMethodTable e) v opts =
    inr (if (0 <=? v) && (v <=? 0xff) then mkEntry writeUInt8 1 0 0xff
         else if (0 <=? v) && (v <=? 0xffff) then mkEntry (writeUInt16 e) 2 0 0xffff
         else if 0 <=? v then mkEntry (writeUInt32 e) 4 0 0xffffffff
         else if -0x80 <=? v then mkEntry writeInt8 1 (-0x80) 0x7f
         else if -0x8000 <=? v then mkEntry (writeInt16 e) 2 (-0x8000) 0x7fff
         else mkEntry (writeInt32 e) 4 (-0x80000000) 0x7fffffff).
Proof.
  intros Hv Hsz. unfold writeInt_type. rewrite Hsz.
  unfold Range.test, UNSIGNED_RANGE; simpl.
  unfold test, gentestInt, between; simpl.
  zcases; reflexivity.
Qed.

Lemma valid_size_inv (size : jsval) :
  valid_size size = true <-> size = JNum 8 \/ size = JNum 16 \/ size = JNum 32.
Proof.
  unfold valid_size, INT_SIZES. split.
  - destruct size as [| b | z]; try done.
    intros H%bool_decide_eq_true.
    repeat (apply elem_of_cons in H as [-> | H]; [by auto |]).
    by apply elem_of_nil in H.
  - intros [-> | [-> | ->]]; apply bool_decide_eq_true; in_table.
Qed.

(** With an explicit size the selection never reaches the table scan. *)
Lemma sized_select (e : endianness) (v : Z) (opts : option (gmap string jsval)) :
  - 2 ^ 31 <= v < 2 ^ 32 ->
  truthy (opt_prop opts "size") = true ->
  writeInt_type (_generateMethodTable e) v opts =
    if valid_size (opt_prop opts "size") then
      match bySize (_generateMethodTable e) (0 <? v) (to_number (opt_prop opts "size")) with
      | Some type => inr type
      | None => inl DispatchError
      end
    else inl SizeError.
Proof.
  intros Hv Hsz. unfold writeInt_type. rewrite Hsz.
  unfold Range.test, UNSIGNED_RANGE; simpl.
  destruct (Z.leb_spec (-2147483648) v); [| lia].
  destruct (Z.leb_spec v 4294967295); [| lia].
  simpl. by destruct (valid_size _).
Qed.

Lemma writeRaw_check_stops (r : Range.range) (l1 l2 : list jsval) (x : jsval) :
  Forall (fun y => exists z, y = JNum z /\ Range.test r z = true) l1 ->
  writeRaw_check r (l1 ++ x :: l2) = writeRaw_check r (x :: l2).
Proof.
  induction 1 as [| y l1 (z & -> & Hz) _ IH]; [done |].
  simpl. by rewrite Hz.
Qed.

Lemma eight_bit_test (z : Z) :
  Range.test (UNSIGNED_RANGE 8) z = true <-> -0x80 <= z <= 0xff.
Proof.
  unfold Range.test, UNSIGNED_RANGE; simpl.
  rewrite andb_true_iff, !Z.leb_le. lia.
Qed.

(** What the unchecked call at the end of the validated path does: the
    identifier passed to the recursive call is unbound. *)
Lemma writeRaw_valid_list (l : list jsval) (opts : option (gmap string jsval)) (w : BitWriter) :
  opt_prop opts "safe" <> JBool true ->
  writeRaw_check (UNSIGNED_RANGE 8) l = None ->
  writeRaw (Arr l) opts w = (inl ReferenceError, w).
Proof.
  intros Hsafe Hok. unfold writeRaw.
  rewrite bool_decide_eq_false_2 by done. by rewrite Hok.
Qed.

(** ** How the primitives act on the writer *)

Lemma position_spec (p : Z) (w : BitWriter) :
  position p w =
    if (0 <=? p) && (p <=? length_ w)
    then (inr tt, {| _buffer := _buffer w; _pos := p; _endianness := _endianness w |})
    else (inl RangeError, w).
Proof. unfold position, throw. zcases; reflexivity. Qed.

Lemma copy_length (source target b : list Z) (start : Z) :
  Buffer.copy source target start = inr b -> length b = length target.
Proof.
  unfold Buffer.copy. repeat case_match; intros [= <-]; [done |].
  apply length_inserts.
Qed.

Lemma write_length (m : bufmethod) (b b' : list Z) (v : jsval) (offset : Z) :
  Buffer.write m b v offset = inr b' -> length b' = length b.
Proof.
  unfold Buffer.write. repeat case_match; intros [= <-].
  apply length_inserts.
Qed.

Lemma copy_fits (source target : list Z) (start : Z) :
  0 <= start ->
  start + Z.of_nat (length source) <= Z.of_nat (length target) ->
  Buffer.copy source target start = inr (list_inserts (Z.to_nat start) source target).
Proof.
  intros H0 Hfit. unfold Buffer.copy.
  destruct (Nat.eqb_spec (length source) 0) as [Hs | Hs]; simpl.
  { apply nil_length_inv in Hs. by subst source. }
  destruct (Nat.eqb_spec (length target) 0) as [Ht | Ht]; simpl; [lia |].
  destruct (Z.ltb_spec start 0); [lia |].
  destruct (Z.leb_spec (Z.of_nat (length target)) start); [lia |].
  simpl. rewrite take_ge by lia. done.
Qed.

Lemma _copyBuffer_fits (buf : list Z) (w : BitWriter) :
  0 <= _pos w ->
  Z.of_nat (length buf) <= remaining w ->
  _copyBuffer buf w =
    (inr tt, {| _buffer := list_inserts (Z.to_nat (_pos w)) buf (_buffer w);
                _pos := _pos w + Z.of_nat (length buf);
                _endianness := _endianness w |}).
Proof.
  intros H0 Hfit. unfold remaining, length_ in Hfit.
  unfold _copyBuffer, bind, get_position, on_buffer.
  rewrite copy_fits by lia.
  unfold move, bind, get_position. cbn [_pos].
  rewrite position_spec. unfold length_; simpl. rewrite length_inserts.
  zcases; reflexivity.
Qed.

(** *** Relations every step maintains *)

Section Preservation.

Variable I : BitWriter -> BitWriter -> Prop.
Hypothesis I_refl : forall w, I w w.
Hypothesis I_trans : forall w1 w2 w3, I w1 w2 -> I w2 w3 -> I w1 w3.

Lemma preserves_ret {A} (a : A) : preserves I (ret a).
Proof. intros w. apply I_refl. Qed.

Lemma preserves_throw {A} (e : error) : preserves I (@throw A e).
Proof. intros w. apply I_refl. Qed.

Lemma preserves_bind {A B} (m : M A) (k : A -> M B) :
  preserves I m -> (forall a, preserves I (k a)) -> preserves I (bind m k).
Proof.
  intros Hm Hk w. unfold bind. specialize (Hm w).
  destruct (m w) as [[e | a] w']; simpl in *; [done |].
  eapply I_trans; [exact Hm | apply Hk].
Qed.

End Preservation.

Lemma sized_refl (w : BitWriter) : sized w w.
Proof. by unfold sized. Qed.

Lemma sized_trans (w1 w2 w3 : BitWriter) : sized w1 w2 -> sized w2 w3 -> sized w1 w3.
Proof. unfold sized. intros (? & ? & ?) (? & ? & ?). split_and!; [congruence.. | auto]. Qed.

Lemma bounded_refl (w : BitWriter) : bounded w w.
Proof. split; [apply sized_refl | lia]. Qed.

Lemma bounded_trans (w1 w2 w3 : BitWriter) : bounded w1 w2 -> bounded w2 w3 -> bounded w1 w3.
Proof.
  intros [H12 B12] [H23 B23]. split; [by eapply sized_trans |].
  intros Hw. apply B23. destruct H12 as (_ & _ & Hpos). split; [lia | auto].
Qed.

Lemma bounded_sized {A} (m : M A) : preserves bounded m -> preserves sized m.
Proof. intros H w. apply H. Qed.

Lemma position_bounded (p : Z) : preserves bounded (position p).
Proof.
  intros w. rewrite position_spec.
  destruct (Z.leb_spec 0 p), (Z.leb_spec p (length_ w)); simpl;
    try apply bounded_refl.
  unfold bounded, sized, length_ in *; simpl. split_and!; [done.. | lia].
Qed.

Lemma get_position_bounded : preserves bounded get_position.
Proof. intros w. apply bounded_refl. Qed.

Lemma move_bounded (amount : Z) : preserves bounded (move amount).
Proof.
  apply preserves_bind; [apply bounded_trans | apply get_position_bounded |].
  intros pos. apply position_bounded.
Qed.

Lemma on_buffer_bounded (f : list Z -> error + list Z) :
  (forall b b', f b = inr b' -> length b' = length b) ->
  preserves bounded (on_buffer f).
Proof.
  intros Hf w. unfold on_buffer.
  destruct (f (_buffer w)) as [e | b] eqn:E; simpl; [apply bounded_refl |].
  apply Hf in E. unfold bounded, sized, length_; simpl. rewrite E.
  split_and!; [done.. | lia].
Qed.

Lemma _copyBuffer_bounded (buf : list Z) : preserves bounded (_copyBuffer buf).
Proof.
  apply preserves_bind; [apply bounded_trans | apply get_position_bounded |].
  intros pos. apply preserves_bind; [apply bounded_trans | |].
  - apply on_buffer_bounded. intros b b'. apply copy_length.
  - intros _. apply move_bounded.
Qed.

Lemma writeInt_bounded (v : Z) (opts : option (gmap string jsval)) :
  preserves bounded (writeInt v opts).
Proof.
  intros w. unfold writeInt.
  destruct (writeInt_type _ _ _) as [e | type]; [apply bounded_refl |].
  destruct (remaining w <? byte_length type); [apply bounded_refl |].
  revert w. apply preserves_bind; [apply bounded_trans | apply get_position_bounded |].
  intros pos. apply preserves_bind; [apply bounded_trans | |].
  - apply on_buffer_bounded. intros b b'. apply write_length.
  - intros _. apply move_bounded.
Qed.

Lemma post_increment_pos_sized : preserves sized post_increment_pos.
Proof. intros w. unfold sized; simpl. split_and!; [done.. | lia]. Qed.

Lemma writeRaw_safe_sized (arry : list jsval) : preserves sized (writeRaw_safe arry).
Proof.
  induction arry as [| x rest IH]; simpl.
  - apply preserves_ret, sized_refl.
  - apply preserves_bind; [apply sized_trans | apply post_increment_pos_sized |].
    intros n. apply preserves_bind; [apply sized_trans | | done].
    apply bounded_sized, on_buffer_bounded. intros b b'. apply write_length.
Qed.

Lemma writeRaw_sized (arry : raw) (opts : option (gmap string jsval)) :
  preserves sized (writeRaw arry opts).
Proof.
  destruct arry as [b | l]; simpl.
  - apply bounded_sized, _copyBuffer_bounded.
  - case_match; [apply writeRaw_safe_sized |].
    case_match; apply preserves_throw, sized_refl.
Qed.

Lemma writeRaw_bounded (arry : raw) (opts : option (gmap string jsval)) :
  (forall l, arry = Arr l -> opt_prop opts "safe" <> JBool true) ->
  preserves bounded (writeRaw arry opts).
Proof.
  intros Hsafe. destruct arry as [b | l]; simpl.
  - apply _copyBuffer_bounded.
  - rewrite bool_decide_eq_false_2 by by apply (Hsafe l).
    case_match; apply preserves_throw, bounded_refl.
Qed.

Lemma writeString_body_bounded (s : string) (o : gmap string jsval) :
  preserves bounded (writeString_body s o).
Proof.
  unfold writeString_body.
  destruct (truthy (prop o "size")).
  - destruct (_ <? _).
    + destruct (Buffer.slice _ _ _); [apply preserves_throw, bounded_refl |].
      apply _copyBuffer_bounded.
    + apply _copyBuffer_bounded.
  - intros w. destruct (_ <? _); [apply bounded_refl |].
    revert w. apply preserves_bind; [apply bounded_trans | apply _copyBuffer_bounded |].
    intros _ w. destruct (_ && _); [apply _copyBuffer_bounded | apply bounded_refl].
Qed.

Lemma reset_bounded : preserves bounded reset.
Proof.
  apply preserves_bind; [apply bounded_trans | | intros _; apply position_bounded].
  apply on_buffer_bounded. intros b b' [= <-]. apply length_replicate.
Qed.

Lemma _makeArrayLike_set_bounded (n : nat) (v : Z) :
  preserves bounded (_makeArrayLike_set n v).
Proof.
  intros w. unfold _makeArrayLike_set.
  destruct (bool_decide _); [| apply bounded_refl].
  destruct (negb _); [apply bounded_refl |].
  apply on_buffer_bounded. intros b b' [= <-]. apply length_insert.
Qed.

Lemma run_bounded (o : operation) :
  safe_array_write o = false -> preserves bounded (run o).
Proof.
  intros Hsafe. destruct o as [d opts | v opts | s opts | a opts | p | a | | n v]; simpl.
  - destruct d as [s | r | v]; simpl.
    + apply writeString_body_bounded.
    + apply writeRaw_bounded. intros l ->. simpl in Hsafe.
      by apply bool_decide_eq_false in Hsafe.
    + apply writeInt_bounded.
  - apply writeInt_bounded.
  - apply writeString_body_bounded.
  - apply writeRaw_bounded. intros l ->. simpl in Hsafe.
    by apply bool_decide_eq_false in Hsafe.
  - apply position_bounded.
  - apply move_bounded.
  - apply reset_bounded.
  - apply _makeArrayLike_set_bounded.
Qed.

(** Every operation, the unchecked array write included, keeps the length
    of the buffer and a non-negative cursor. *)
Lemma run_sized (o : operation) : preserves sized (run o).
Proof.
  destruct (safe_array_write o) eqn:Hsafe; [| by apply bounded_sized, run_bounded].
  destruct o as [[s | [b | l] | v] opts | v opts | s opts | [b | l] opts | p | a | | n v];
    try discriminate; simpl; apply writeRaw_sized.
Qed.

(** The cursor of a reachable writer is never negative, which is all the
    statements below ask of a writer state. *)
Lemma reachable_pos_nonneg (w : BitWriter) : reachable w -> 0 <= _pos w.
Proof.
  induction 1 as [n e | o w _ IH]; [simpl; lia |].
  by apply (run_sized o w).
Qed.

(** ** Selection always lands in the table *)

(** Zero is stored the same way by the signed and the unsigned writer of a
    width. *)
Lemma zero_signed_unsigned (b : list Z) (offset : Z) (e : endianness) :
  Buffer.write writeInt8 b (JNum 0) offset = Buffer.write writeUInt8 b (JNum 0) offset
  /\ Buffer.write (writeInt16 e) b (JNum 0) offset
     = Buffer.write (writeUInt16 e) b (JNum 0) offset
  /\ Buffer.write (writeInt32 e) b (JNum 0) offset
     = Buffer.write (writeUInt32 e) b (JNum 0) offset.
Proof. unfold Buffer.write. by destruct e. Qed.

Lemma writeInt_type_in_table (e : endianness) (v : Z)
    (opts : option (gmap string jsval)) (m : entry) :
  writeInt_type (_generateMethodTable e) v opts = inr m ->
  m ∈ _generateMethodTable e.
Proof.
  unfold writeInt_type.
  destruct (negb _); [done |].
  destruct (truthy _).
  - destruct (negb _); [done |].
    destruct (bySize _ _ _) as [type |] eqn:E; [| done].
    intros [= <-]. unfold bySize in E.
    repeat case_match; try done; by eapply list_elem_of_lookup_2.
  - destruct (head _) as [type |] eqn:E; [| done].
    intros [= <-]. apply head_Some_elem_of in E.
    apply list_elem_of_In, List.filter_In in E as [E _].
    by apply list_elem_of_In.
Qed.

Lemma byte_length_pos (e : endianness) (m : entry) :
  m ∈ _generateMethodTable e -> 1 <= byte_length m.
Proof.
  intros [-> _]%table_consistent. destruct (method m); simpl; lia.
Qed.

Lemma select_total (e : endianness) (v : Z) (opts : option (gmap string jsval)) :
  - 2 ^ 31 <= v < 2 ^ 32 ->
  truthy (opt_prop opts "size") = false \/ valid_size (opt_prop opts "size") = true ->
  exists m : entry, writeInt_type (_generateMethodTable e) v opts = inr m.
Proof.
  intros Hv [Hsz | Hsz].
  - rewrite auto_select by done. eauto.
  - assert (Ht : truthy (opt_prop opts "size") = true).
    { apply valid_size_inv in Hsz as [-> | [-> | ->]]; done. }
    rewrite sized_select, Hsz by done.
    apply valid_size_inv in Hsz as [-> | [-> | ->]];
      destruct (0 <? v); simpl; eauto.
Qed.

(** ** String writes *)

Lemma resolved_size (opts : option (gmap string jsval)) :
  prop (writeString_opts opts) "size" = opt_prop opts "size".
Proof.
  unfold writeString_opts, opt_prop, prop.
  destruct opts as [o |]; simpl; case_bool_decide; try done;
    by rewrite lookup_insert_ne.
Qed.

Lemma resolved_null (opts : option (gmap string jsval)) :
  prop (writeString_opts opts) "null" = JBool false <-> opt_prop opts "null" = JBool false.
Proof.
  unfold writeString_opts, opt_prop, prop.
  destruct opts as [o |]; simpl; case_bool_decide as Hn; try done.
  rewrite lookup_insert_eq. simpl.
  destruct (o !! "null") eqn:E; [by destruct Hn; eauto | done].
Qed.

Lemma writeString_unsized (s : string) (o : gmap string jsval) (w : BitWriter) :
  truthy (prop o "size") = false ->
  0 <= _pos w ->
  writeString_body s o w =
    let text := Buffer.from_string s in
    let len := Z.of_nat (length text) in
    if remaining w <? len then (inl OverflowError, w)
    else
      let term := terminator (prop o "null") len (remaining w) in
      (inr tt, {| _buffer := list_inserts (Z.to_nat (_pos w)) (text ++ term) (_buffer w);
                  _pos := _pos w + len + Z.of_nat (length term);
                  _endianness := _endianness w |}).
Proof.
  intros Hsz Hpos. unfold writeString_body. rewrite Hsz. cbv zeta.
  generalize (Buffer.from_string s). intros text.
  destruct (Z.ltb_spec (remaining w) (Z.of_nat (length text))) as [Hov | Hfit]; [done |].
  unfold write_other, writeRaw, bind.
  rewrite _copyBuffer_fits by done.
  set (w1 := {| _buffer := list_inserts _ text _ |}).
  assert (Hrem : remaining w1 = remaining w - Z.of_nat (length text)).
  { unfold remaining, length_, w1; simpl. rewrite length_inserts. lia. }
  unfold terminator. rewrite Hrem.
  case_bool_decide as Hnull; simpl.
  { rewrite app_nil_r. unfold ret, w1. do 2 f_equal. lia. }
  destruct (Z.ltb_spec 0 (remaining w - Z.of_nat (length text))) as [Hroom | Hfull];
    destruct (Z.ltb_spec (Z.of_nat (length text)) (remaining w)); try lia.
  - rewrite _copyBuffer_fits by (rewrite ?Hrem; unfold w1, NULL_BYTE; simpl; lia).
    unfold w1; simpl. rewrite list_inserts_app_l.
    replace (length text + Z.to_nat (_pos w))%nat
      with (Z.to_nat (_pos w + Z.of_nat (length text))) by lia.
    done.
  - rewrite app_nil_r. unfold ret, w1. do 2 f_equal. simpl. lia.
Qed.

Lemma writeString_sized (s : string) (o : gmap string jsval) (w : BitWriter) (N : Z) :
  prop o "size" = JNum N ->
  0 < N <= remaining w ->
  0 <= _pos w ->
  writeString_body s o w =
    let text := Buffer.from_string s in
    let written :=
      if N <? Z.of_nat (length text) then take (Z.to_nat N) text
      else text ++ replicate (Z.to_nat (N - Z.of_nat (length text))) 0 in
    (inr tt, {| _buffer := list_inserts (Z.to_nat (_pos w)) written (_buffer w);
                _pos := _pos w + N;
                _endianness := _endianness w |}).
Proof.
  intros Hsz HN Hpos. unfold writeString_body. rewrite Hsz.
  cbn [truthy to_number]. destruct (Z.eqb_spec N 0); [lia |]. cbn [negb]. cbv zeta.
  generalize (Buffer.from_string s). intros text.
  destruct (Z.ltb_spec N (Z.of_nat (length text))) as [Hlong | Hshort].
  - unfold Buffer.slice.
    destruct (Z.ltb_spec (Z.of_nat (length text)) N); [lia |].
    destruct (Z.ltb_spec N 0); [lia |].
    rewrite Z.sub_0_r. change (Z.to_nat 0) with 0%nat. rewrite drop_0.
    unfold write_other, writeRaw. cbv beta iota.
    assert (Hlen : Z.of_nat (length (take (Z.to_nat N) text)) = N)
      by (rewrite length_take_le; lia).
    rewrite _copyBuffer_fits by lia. by rewrite Hlen.
  - unfold Buffer.concat, Buffer.zeroed. simpl mjoin. rewrite app_nil_r.
    unfold write_other, writeRaw. cbv beta iota.
    assert (Hlen : Z.of_nat (length (text ++
                     replicate (Z.to_nat (N - Z.of_nat (length text))) 0)) = N)
      by (rewrite length_app, length_replicate; lia).
    rewrite _copyBuffer_fits by lia. by rewrite Hlen.
Qed.

(** ** How far a successful step moves the cursor *)

Lemma advances_ret {A} (a : A) : advances (ret a) 0.
Proof. intros w a' w' [= _ <-]. lia. Qed.

Lemma advances_throw {A} (e : error) (n : Z) : advances (@throw A e) n.
Proof. intros w a w' [=]. Qed.

Lemma advances_bind {A B} (m : M A) (k : A -> M B) (n1 n2 : Z) :
  advances m n1 -> (forall a, advances (k a) n2) -> advances (bind m k) (n1 + n2).
Proof.
  intros Hm Hk w b w'. unfold bind.
  destruct (m w) as [[e | a] w1] eqn:E; [done |].
  intros Hkw. apply Hm in E. apply Hk in Hkw. lia.
Qed.

Lemma advances_eq {A} (m : M A) (n n' : Z) : n = n' -> advances m n -> advances m n'.
Proof. by intros ->. Qed.

Lemma get_position_advances : advances get_position 0.
Proof. intros w a w' [= _ <-]. lia. Qed.

Lemma on_buffer_advances (f : list Z -> error + list Z) :
  (forall b b', f b = inr b' -> length b' = length b) ->
  advances (on_buffer f) 0.
Proof.
  intros Hf w a w'. unfold on_buffer.
  destruct (f (_buffer w)) as [e | b] eqn:E; [done |].
  intros [= <- <-]. apply Hf in E. unfold remaining, length_; simpl. lia.
Qed.

Lemma move_advances (amount : Z) : advances (move amount) amount.
Proof.
  intros w a w'. unfold move, bind, get_position. rewrite position_spec.
  destruct (_ && _); [| done].
  intros [= <- <-]. unfold remaining, length_; simpl. lia.
Qed.

Lemma post_increment_pos_advances : advances post_increment_pos 1.
Proof. intros w a w' [= _ <-]. unfold remaining, length_; simpl. lia. Qed.

Lemma _copyBuffer_advances (buf : list Z) :
  advances (_copyBuffer buf) (Z.of_nat (length buf)).
Proof.
  unfold _copyBuffer.
  eapply advances_eq; [| apply advances_bind; [apply get_position_advances |]].
  2: { intros pos. apply advances_bind.
       - apply on_buffer_advances. intros b b'. apply copy_length.
       - intros _. apply move_advances. }
  lia.
Qed.

Lemma writeRaw_safe_advances (arry : list jsval) :
  advances (writeRaw_safe arry) (Z.of_nat (length arry)).
Proof.
  induction arry as [| x rest IH]; simpl writeRaw_safe.
  - apply advances_ret.
  - eapply advances_eq; [| apply advances_bind; [apply post_increment_pos_advances |]].
    2: { intros n. apply advances_bind; [| intros _; exact IH].
         apply on_buffer_advances. intros b b'. apply write_length. }
    simpl length. lia.
Qed.

Lemma writeRaw_advances (arry : raw) (opts : option (gmap string jsval)) :
  advances (writeRaw arry opts) (raw_length arry).
Proof.
  destruct arry as [b | l]; simpl.
  - apply _copyBuffer_advances.
  - case_match; [apply writeRaw_safe_advances |].
    case_match; apply advances_throw.
Qed.

Lemma writeString_sized_advances (s : string) (o : gmap string jsval) :
  truthy (prop o "size") = true ->
  advances (writeString_body s o) (to_number (prop o "size")).
Proof.
  intros Hsz. unfold writeString_body. rewrite Hsz. cbv zeta.
  generalize (Buffer.from_string s). intros text.
  generalize (to_number (prop o "size")). intros N.
  destruct (Z.ltb_spec N (Z.of_nat (length text))) as [Hlong | Hshort].
  - unfold Buffer.slice.
    destruct (Z.ltb_spec (Z.of_nat (length text)) N); [apply advances_throw |].
    destruct (Z.ltb_spec N 0); [apply advances_throw |].
    eapply advances_eq; [| apply _copyBuffer_advances].
    rewrite length_take_le; rewrite ?length_drop; lia.
  - eapply advances_eq; [| apply _copyBuffer_advances].
    unfold Buffer.concat, Buffer.zeroed; simpl.
    rewrite app_nil_r, length_app, length_replicate. lia.
Qed.

(** ** Integer writes either fail untouched or advance *)

Lemma writeInt_cases (v : Z) (opts : option (gmap string jsval)) (w : BitWriter) :
  (exists e, writeInt v opts w = (inl e, w))
  \/ (exists (m : entry) (b : list Z),
        writeInt_type (_methods w) v opts = inr m
        /\ byte_length m <= remaining w
        /\ length b = length (_buffer w)
        /\ writeInt v opts w =
             (inr tt, {| _buffer := b;
                         _pos := _pos w + byte_length m;
                         _endianness := _endianness w |})).
Proof.
  destruct (writeInt_type (_methods w) v opts) as [e | m] eqn:Hsel.
  { left. exists e. unfold writeInt. by rewrite Hsel. }
  rewrite (writeInt_selected v opts w m Hsel).
  destruct (Z.ltb_spec (remaining w) (byte_length m)); [left; eauto |].
  destruct (Buffer.write _ _ _ _) as [e | b] eqn:Hw; [left; eauto |].
  right. exists m, b.
  assert (Hlen := write_length _ _ _ _ _ Hw).
  apply writeInt_type_in_table, table_consistent in Hsel as Hcons.
  destruct Hcons as (Hbl & _ & _).
  unfold Buffer.write in Hw.
  destruct (Z.leb_spec 0 (_pos w)); [| done].
  destruct (Z.leb_spec (_pos w + Z.of_nat (Buffer.width (method m)))
              (Z.of_nat (length (_buffer w)))); [| done].
  split_and!; [done.. |].
  rewrite position_spec. unfold length_; simpl. rewrite Hlen.
  destruct (Z.leb_spec 0 (_pos w + byte_length m)); [| lia].
  destruct (Z.leb_spec (_pos w + byte_length m) (Z.of_nat (length (_buffer w))));
    [done | lia].
Qed.

Lemma resolved_terminator (opts : option (gmap string jsval)) (len room : Z) :
  terminator (prop (writeString_opts opts) "null") len room
  = terminator (opt_prop opts "null") len room.
Proof.
  unfold terminator.
  destruct (decide (opt_prop opts "null" = JBool false)) as [Hn | Hn].
  - rewrite !bool_decide_eq_true_2; [done.. |]. by apply resolved_null.
  - rewrite !bool_decide_eq_false_2; [done | done |]. by rewrite resolved_null.
Qed.

Lemma writeRaw_check_kinds (r : Range.range) (l : list jsval) (e : error) :
  writeRaw_check r l = Some e -> e = RangeError \/ e = ArrayTypeError.
Proof.
  induction l as [| x l IH]; simpl; [done |].
  destruct x as [| b | z]; try (intros [= <-]; by right).
  destruct (negb _); [intros [= <-]; by left | done].
Qed.

(** ** Where a failed write leaves the cursor *)

Lemma _copyBuffer_fails_in_place (buf : list Z) (w w' : BitWriter) (e : error) :
  _copyBuffer buf w = (inl e, w') ->
  _pos w' = _pos w /\ length (_buffer w') = length (_buffer w).
Proof.
  unfold _copyBuffer, bind, get_position, on_buffer.
  destruct (Buffer.copy buf (_buffer w) (_pos w)) as [err | b] eqn:E.
  - by intros [= _ <-].
  - unfold move, bind, get_position. cbn [_buffer _pos _endianness].
    rewrite position_spec. destruct (_ && _); [done |].
    intros [= _ <-]. simpl. split; [done |]. eapply copy_length, E.
Qed.

(** Apart from the unchecked array write, a write that fails has not moved
    the cursor. *)
Lemma write_fails_in_place (d : data) (opts : option (gmap string jsval))
    (w w' : BitWriter) (e : error) :
  0 <= _pos w ->
  safe_array_write (OpWrite d opts) = false ->
  fst (write d opts w) = (inl e, w') ->
  _pos w' = _pos w /\ length (_buffer w') = length (_buffer w).
Proof.
  intros Hpos Hsafe. destruct d as [s | [b | l] | v]; simpl in *.
  - destruct (truthy (opt_prop opts "size")) eqn:Hsz.
    + unfold writeString_body. rewrite resolved_size, Hsz. cbv zeta.
      destruct (_ <? _).
      * destruct (Buffer.slice _ _ _); [by intros [= _ <-] |].
        apply _copyBuffer_fails_in_place.
      * apply _copyBuffer_fails_in_place.
    + rewrite writeString_unsized by (by rewrite ?resolved_size).
      cbv zeta. destruct (_ <? _); [| done]. by intros [= _ <-].
  - apply _copyBuffer_fails_in_place.
  - rewrite Hsafe. destruct (writeRaw_check _ _); by intros [= _ <-].
  - destruct (writeInt_cases v opts w) as [[e0 ->] | (m & b & _ & _ & _ & ->)];
      [by intros [= _ <-] | done].
Qed.

Lemma write_uint8_full (b : list Z) (x : jsval) (p : Z) :
  Z.of_nat (length b) <= p -> Buffer.write writeUInt8 b x p = inl HostError.
Proof.
  intros Hp. unfold Buffer.write. cbn [Buffer.width].
  destruct (Z.leb_spec 0 p); [| done].
  destruct (Z.leb_spec (p + Z.of_nat 1) (Z.of_nat (length b))); [lia | done].
Qed.

(** ** C1: Automatic selection of the integer encoding *)

(** C1: for every integer [v] in [-2^31, 2^31) written by [writeInt] (or by
    [write]) with no explicit size, the entry selected is the first one, in
    the order unsigned-8, unsigned-16, unsigned-32, signed-8, signed-16,
    signed-32, whose range contains [v], and the write then encodes [v] with
    that entry; on a fresh big-endian writer of length 4, [write(300)]
    selects unsigned-16 and leaves the bytes 01 2C 00 00 with the cursor at
    2. *)
Theorem C1_auto_selection (e : endianness) (v : Z) (opts : option (gmap string jsval)) :
  - 2 ^ 31 <= v < 2 ^ 31 ->
  truthy (opt_prop opts "size") = false ->
  method <$> _generateMethodTable e
    = [writeUInt8; writeUInt16 e; writeUInt32 e; writeInt8; writeInt16 e; writeInt32 e]
  /\ (exists (i : nat) (m : entry),
        writeInt_type (_generateMethodTable e) v opts = inr m
        /\ _generateMethodTable e !! i = Some m
        /\ test m v = true
        /\ (forall (j : nat) (m' : entry),
              (j < i)%nat -> _generateMethodTable e !! j = Some m' -> test m' v = false)
        /\ (forall w : BitWriter,
              _endianness w = e ->
              fst (write (Num v) opts w) = writeInt v opts w
              /\ (0 <= _pos w -> byte_length m <= remaining w ->
                  writeInt v opts w =
                    (inr tt,
                     {| _buffer := list_inserts (Z.to_nat (_pos w))
                                     (Buffer.encode (method m) v) (_buffer w);
                        _pos := _pos w + byte_length m;
                        _endianness := e |}))))
  /\ writeInt_type (_generateMethodTable BE) 300 None = inr (mkEntry (writeUInt16 BE) 2 0 0xffff)
  /\ fst (write (Num 300) None (initialize 4 None))
     = (inr tt, {| _buffer := [0x01; 0x2C; 0x00; 0x00]; _pos := 2; _endianness := BE |}).
Proof.
  intros Hv Hsz. split; [reflexivity |]. split; [| split; reflexivity].
  assert (Hsel := auto_select e v opts ltac:(lia) Hsz).
  set (m := if (0 <=? v) && (v <=? 0xff) then _ else _) in Hsel.
  assert (Hidx : exists i : nat,
             _generateMethodTable e !! i = Some m /\ test m v = true
             /\ forall (j : nat) (m' : entry),
                 (j < i)%nat -> _generateMethodTable e !! j = Some m' -> test m' v = false).
  { subst m. unfold test, gentestInt, between.
    destruct (Z.leb_spec 0 v); simpl.
    - destruct (Z.leb_spec v 0xff); simpl.
      { exists 0%nat. split; [done |]. split; [zcases; done |]. intros; lia. }
      destruct (Z.leb_spec v 0xffff); simpl.
      { exists 1%nat. split; [done |]. split; [zcases; done |].
        intros j m' Hj Hm'. destruct j as [|j]; [| lia].
        simpl in Hm'. injection Hm' as <-. simpl. zcases; done. }
      exists 2%nat. split; [done |]. split; [simpl; zcases; done |].
      intros j m' Hj Hm'. destruct j as [|[|j]]; [| | lia];
        simpl in Hm'; injection Hm' as <-; simpl; zcases; done.
    - destruct (Z.leb_spec (-0x80) v); simpl.
      { exists 3%nat. split; [done |]. split; [simpl; zcases; done |].
        intros j m' Hj Hm'. destruct j as [|[|[|j]]]; [| | | lia];
          simpl in Hm'; injection Hm' as <-; simpl; zcases; done. }
      destruct (Z.leb_spec (-0x8000) v); simpl.
      { exists 4%nat. split; [done |]. split; [simpl; zcases; done |].
        intros j m' Hj Hm'. destruct j as [|[|[|[|j]]]]; [| | | | lia];
          simpl in Hm'; injection Hm' as <-; simpl; zcases; done. }
      exists 5%nat. split; [done |]. split; [simpl; zcases; done |].
      intros j m' Hj Hm'. destruct j as [|[|[|[|[|j]]]]]; [| | | | | lia];
        simpl in Hm'; injection Hm' as <-; simpl; zcases; done. }
  destruct Hidx as (i & Hi & Ht & Hfirst).
  exists i, m. repeat split; try done.
  intros Hpos Hroom.
  assert (Hin : m ∈ _generateMethodTable e) by (eapply list_elem_of_lookup_2; eauto).
  destruct (table_consistent e m Hin) as (Hlen & Hlo & Hhi).
  rewrite (writeInt_selected v opts w m) by (unfold _methods; rewrite H; exact Hsel).
  destruct (Z.ltb_spec (remaining w) (byte_length m)); [lia |].
  unfold Buffer.write.
  unfold test, gentestInt, between in Ht. rewrite Hlo, Hhi in Ht. rewrite Ht. simpl.
  unfold remaining, length_ in *.
  destruct (Z.leb_spec 0 (_pos w)); [| lia].
  destruct (Z.leb_spec (_pos w + Z.of_nat (Buffer.width (method m)))
              (Z.of_nat (length (_buffer w)))); [| lia].
  simpl. unfold position, length_; simpl.
  rewrite length_inserts.
  destruct (Z.ltb_spec (Z.of_nat (length (_buffer w))) (_pos w + byte_length m)); [lia |].
  destruct (Z.ltb_spec (_pos w + byte_length m) 0); [lia |].
  simpl. by rewrite H.
Qed.

Lemma C1_auto_selection_witness :
  exists (i : nat) (m : entry),
    writeInt_type (_generateMethodTable LE) (-200) None = inr m
    /\ _generateMethodTable LE !! i = Some m /\ test m (-200) = true.
Proof.
  destruct (C1_auto_selection LE (-200) None ltac:(lia) eq_refl)
    as (_ & (i & m & H1 & H2 & H3 & _) & _).
  exists i, m. auto.
Defined.

(** ** C2: All-or-nothing writes *)

(** C2 (as the code has it): for every writer state, a write operation
    that fails leaves [remaining()] exactly as before the call, unless it
    is [writeRaw] of an array with [safe: true]; it also leaves the buffer
    contents exactly as before when it is a [writeInt], a [writeString]
    without explicit size or a [writeRaw] of an array not marked [safe]
    (directly or through [write]); and every write operation that succeeds
    decreases [remaining()] by exactly the number of bytes encoded. *)
Theorem C2_all_or_nothing (w : BitWriter) (d : data) (opts : option (gmap string jsval)) :
  0 <= _pos w ->
  (validates_first d opts = true ->
     forall (e : error) (w' : BitWriter),
       fst (write d opts w) = (inl e, w') -> w' = w)
  /\ (safe_array_write (OpWrite d opts) = false ->
      forall (e : error) (w' : BitWriter),
        fst (write d opts w) = (inl e, w') ->
        remaining w' = remaining w /\ _pos w' = _pos w)
  /\ (forall (a : unit) (w' : BitWriter),
        fst (write d opts w) = (inr a, w') ->
        remaining w' = remaining w - encoded_length d opts w)
  /\ fst (write d opts w) =
       match d with
       | Num v => writeInt v opts w
       | Str s => fst (writeString s opts w)
       | Raw r => writeRaw r opts w
       end.
Proof.
  intros Hpos. split_and!.
  - intros Hval e w'. destruct d as [s | [b | l] | v]; simpl in *; try done.
    + apply negb_true_iff in Hval.
      rewrite writeString_unsized by (by rewrite ?resolved_size).
      cbv zeta. destruct (_ <? _); [| done]. by intros [= _ <-].
    + apply negb_true_iff in Hval. rewrite Hval.
      destruct (writeRaw_check _ _); by intros [= _ <-].
    + destruct (writeInt_cases v opts w) as [[e0 ->] | (m & b & _ & _ & _ & ->)];
        [by intros [= _ <-] | done].
  - intros Hsafe e w' Hfail.
    destruct (write_fails_in_place d opts w w' e Hpos Hsafe Hfail) as [Hp Hl].
    split; [| done]. unfold remaining, length_. rewrite Hp, Hl. done.
  - intros a w'. destruct d as [s | r | v]; simpl.
    + destruct (truthy (opt_prop opts "size")) eqn:Hsz.
      * intros Hrun. rewrite <- (resolved_size opts).
        eapply writeString_sized_advances; [by rewrite resolved_size | exact Hrun].
      * rewrite writeString_unsized by (by rewrite ?resolved_size).
        cbv zeta. rewrite resolved_terminator.
        destruct (_ <? _); [done |]. intros [= _ <-].
        unfold remaining, length_; simpl. rewrite length_inserts. lia.
    + apply writeRaw_advances.
    + destruct (writeInt_cases v opts w) as [[e0 ->] | (m & b & Hsel & _ & Hlen & ->)];
        [done |].
      intros [= _ <-]. rewrite Hsel. unfold remaining, length_; simpl. lia.
  - by destruct d.
Qed.

Lemma C2_all_or_nothing_witness :
  0 <= _pos (initialize 5 None)
  /\ remaining (snd (fst (write (Str "hi") None (initialize 5 None))))
     = remaining (initialize 5 None) - encoded_length (Str "hi") None (initialize 5 None).
Proof.
  assert (Hpos : 0 <= _pos (initialize 5 None)) by (simpl; lia).
  split; [exact Hpos |].
  destruct (C2_all_or_nothing (initialize 5 None) (Str "hi") None Hpos)
    as (_ & _ & Hok & _).
  apply (Hok tt). vm_compute. reflexivity.
Defined.

(** C2, as stated, fails.  On a fresh writer of length 2, [writeRaw] of the
    three-byte buffer 01 02 03 throws, yet two bytes have been written; so
    does [writeString("hello", {size: 4})].  On a fresh writer of length 1,
    [writeRaw([1, 2], {safe: true})] throws, yet a byte has been written
    and [remaining()] has gone from 1 to -1. *)
Lemma C2_counterexample :
  (writeRaw (Buf [1; 2; 3]) None (initialize 2 None)
   = (inl RangeError, {| _buffer := [1; 2]; _pos := 0; _endianness := BE |})
   /\ _buffer (snd (writeRaw (Buf [1; 2; 3]) None (initialize 2 None)))
      <> _buffer (initialize 2 None))
  /\ (fst (writeString "hello" (Some {["size" := JNum 4]}) (initialize 2 None))
      = (inl RangeError, {| _buffer := [104; 101]; _pos := 0; _endianness := BE |})
      /\ _buffer (snd (fst (writeString "hello" (Some {["size" := JNum 4]})
                              (initialize 2 None))))
         <> _buffer (initialize 2 None))
  /\ (writeRaw (Arr [JNum 1; JNum 2]) (Some {["safe" := JBool true]}) (initialize 1 None)
      = (inl HostError, {| _buffer := [1]; _pos := 2; _endianness := BE |})
      /\ remaining (initialize 1 None) = 1
      /\ remaining (snd (writeRaw (Arr [JNum 1; JNum 2]) (Some {["safe" := JBool true]})
                           (initialize 1 None))) = -1).
Proof.
  split_and!; try (vm_compute; reflexivity); vm_compute; discriminate.
Qed.

(** ** C3: Selection with an explicit size *)

(** C3 (as the code has it): for every integer [v] of the 32-bit union range
    and every explicit (truthy) size option, [writeInt] fails with a size
    error, leaving the writer as it was, unless the size is 8, 16 or 32;
    otherwise it selects the table entry of that width which is unsigned
    when [v > 0] and signed when [v <= 0]. *)
Theorem C3_sized_selection (e : endianness) (v : Z) (opts : option (gmap string jsval)) :
  - 2 ^ 31 <= v < 2 ^ 32 ->
  truthy (opt_prop opts "size") = true ->
  (valid_size (opt_prop opts "size") = false ->
     writeInt_type (_generateMethodTable e) v opts = inl SizeError
     /\ forall w : BitWriter, writeInt v opts w = (inl SizeError, w))
  /\ (forall s : Z,
        opt_prop opts "size" = JNum s ->
        s ∈ INT_SIZES ->
        exists m : entry,
          writeInt_type (_generateMethodTable e) v opts = inr m
          /\ m ∈ _generateMethodTable e
          /\ 8 * byte_length m = s
          /\ Buffer.signed (method m) = negb (0 <? v)).
Proof.
  intros Hv Hsz. split.
  - intros Hbad. split.
    + by rewrite sized_select, Hbad.
    + intros w. unfold writeInt, _methods.
      by rewrite sized_select, Hbad.
  - intros s Hs Hin. rewrite sized_select by done. rewrite Hs.
    assert (Hvalid : valid_size (JNum s) = true) by by apply bool_decide_eq_true.
    rewrite Hvalid. simpl.
    unfold INT_SIZES in Hin.
    destruct (0 <? v);
      repeat (apply elem_of_cons in Hin as [-> | Hin];
              [simpl; eexists; split; [reflexivity |]; split; [in_table |];
               split; reflexivity |]);
      by apply elem_of_nil in Hin.
Qed.

Lemma C3_sized_selection_witness :
  exists m : entry,
    writeInt_type (_generateMethodTable BE) (-5) (Some {["size" := JNum 16]}) = inr m
    /\ m ∈ _generateMethodTable BE
    /\ 8 * byte_length m = 16
    /\ Buffer.signed (method m) = negb (0 <? -5).
Proof.
  assert (Hsz : truthy (opt_prop (Some {["size" := JNum 16]}) "size") = true)
    by (vm_compute; reflexivity).
  assert (Hv : - 2 ^ 31 <= -5 < 2 ^ 32) by lia.
  apply (C3_sized_selection BE (-5) (Some {["size" := JNum 16]}) Hv Hsz);
    [vm_compute; reflexivity | in_table].
Defined.

(** C3, as stated, fails at [v = 0]: with [{size: 8}] the signed entry is
    selected, not the unsigned one. *)
Lemma C3_counterexample :
  writeInt_type (_generateMethodTable BE) 0 (Some {["size" := JNum 8]})
    = inr (mkEntry writeInt8 1 (-0x80) 0x7f)
  /\ writeInt_type (_generateMethodTable BE) 0 (Some {["size" := JNum 8]})
    <> inr (mkEntry writeUInt8 1 0 0xff).
Proof. split; [vm_compute; reflexivity | vm_compute; discriminate]. Qed.

(** ** C4: Writing into a full writer *)

(** C4 (as the code has it): [full()] is true exactly when [remaining()] is
    0; on such a writer, every write of an integer that selects an encoding
    (in the 32-bit range, with no size or a valid one) and every write of a
    non-empty string without explicit size fails with an overflow error and
    leaves the writer untouched; a non-empty buffer or array given to
    [writeRaw] also fails without any byte being written, but with another
    error than the overflow error, [writeRaw] having no capacity check; the
    cursor does not move either, except for an array with [safe: true],
    which leaves it one past where it was. *)
Theorem C4_full_writer (w : BitWriter) :
  (full w = true <-> remaining w = 0)
  /\ (remaining w = 0 ->
      (forall (v : Z) (opts : option (gmap string jsval)),
         - 2 ^ 31 <= v < 2 ^ 32 ->
         truthy (opt_prop opts "size") = false \/ valid_size (opt_prop opts "size") = true ->
         writeInt v opts w = (inl OverflowError, w)
         /\ fst (write (Num v) opts w) = (inl OverflowError, w))
      /\ (forall (s : string) (opts : option (gmap string jsval)),
            s <> EmptyString ->
            truthy (opt_prop opts "size") = false ->
            fst (writeString s opts w) = (inl OverflowError, w)
            /\ fst (write (Str s) opts w) = (inl OverflowError, w))
      /\ (forall (r : raw) (opts : option (gmap string jsval)),
            raw_length r <> 0 ->
            exists e : error,
              fst (writeRaw r opts w) = inl e
              /\ e <> OverflowError
              /\ _buffer (snd (writeRaw r opts w)) = _buffer w
              /\ (safe_array_write (OpWriteRaw r opts) = false ->
                  snd (writeRaw r opts w) = w
                  /\ fst (write (Raw r) opts w) = (inl e, w))
              /\ (safe_array_write (OpWriteRaw r opts) = true ->
                  _pos (snd (writeRaw r opts w)) = _pos w + 1))).
Proof.
  split; [unfold full; apply Z.eqb_eq |].
  intros Hfull.
  assert (Hpos : _pos w = length_ w) by (unfold remaining in Hfull; lia).
  split_and!.
  - intros v opts Hv Hsz.
    destruct (select_total (_endianness w) v opts Hv Hsz) as [m Hsel].
    assert (Hlen : 1 <= byte_length m)
      by (eapply byte_length_pos, writeInt_type_in_table, Hsel).
    assert (Hint : writeInt v opts w = (inl OverflowError, w)).
    { rewrite (writeInt_selected v opts w m Hsel).
      destruct (Z.ltb_spec (remaining w) (byte_length m)); [done | lia]. }
    by rewrite write_num_is_writeInt.
  - intros s opts Hs Hsz.
    assert (Hstr : fst (writeString s opts w) = (inl OverflowError, w)).
    { unfold writeString; simpl.
      rewrite writeString_unsized; [| by rewrite resolved_size | unfold length_ in Hpos; lia].
      cbv zeta. destruct s as [| c s]; [done |].
      destruct (Z.ltb_spec (remaining w)
                  (Z.of_nat (length (Buffer.from_string (String c s)))));
        [done | simpl in *; lia]. }
    done.
  - intros [b | l] opts Hlen; simpl in Hlen.
    + assert (Hrun : exists e : error,
                writeRaw (Buf b) opts w = (inl e, w) /\ e <> OverflowError).
      { destruct w as [buf pos e0]. unfold length_ in Hpos. simpl in *.
        unfold _copyBuffer, bind, get_position, on_buffer, Buffer.copy.
        cbn [_buffer _pos _endianness].
        destruct (Nat.eqb_spec (length b) 0); [lia |].
        destruct (Nat.eqb_spec (length buf) 0) as [Hempty | Hne]; cbn [orb].
        - unfold move, bind, get_position. cbn [_buffer _pos _endianness].
          rewrite position_spec. unfold length_; cbn [_buffer _pos _endianness].
          destruct (Z.leb_spec 0 (pos + Z.of_nat (length b)));
            destruct (Z.leb_spec (pos + Z.of_nat (length b)) (Z.of_nat (length buf)));
            cbn [andb]; try lia; by exists RangeError.
        - destruct (Z.ltb_spec pos 0); [lia |].
          destruct (Z.leb_spec (Z.of_nat (length buf)) pos); [| lia].
          cbn [orb]. by exists HostError. }
      destruct Hrun as (e & Hrun & He). exists e.
      unfold write, write_other. rewrite Hrun. by split_and!.
    + simpl. case_bool_decide.
      * destruct l as [| x l]; [done |]. simpl writeRaw_safe.
        unfold bind, post_increment_pos, on_buffer. cbn [_buffer _pos _endianness].
        rewrite write_uint8_full by (unfold length_ in Hpos; lia).
        exists HostError. by split_and!.
      * destruct (writeRaw_check _ _) as [e |] eqn:E.
        -- exists e. apply writeRaw_check_kinds in E as [-> | ->]; by split_and!.
        -- exists ReferenceError. by split_and!.
Qed.

Lemma C4_full_writer_witness :
  writeInt 1 None (snd (writeInt 7 None (initialize 1 None)))
  = (inl OverflowError, snd (writeInt 7 None (initialize 1 None))).
Proof.
  assert (Hfull : remaining (snd (writeInt 7 None (initialize 1 None))) = 0)
    by reflexivity.
  assert (Hv : - 2 ^ 31 <= 1 < 2 ^ 32) by lia.
  assert (Hsz : truthy (opt_prop None "size") = false
                \/ valid_size (opt_prop None "size") = true) by (left; reflexivity).
  destruct (C4_full_writer (snd (writeInt 7 None (initialize 1 None)))) as [_ H].
  destruct (H Hfull) as (Hint & _ & _).
  exact (proj1 (Hint 1 None Hv Hsz)).
Defined.

(** C4, as stated, fails: on a full writer, [writeRaw] of a non-empty buffer
    fails with an error of the platform, not an overflow error, and
    [writeRaw] of a non-empty array with [safe: true] moreover moves the
    cursor; an integer outside the 32-bit range, or written with a size
    that is not 8, 16 or 32, fails with a range or size error instead. *)
Lemma C4_counterexample :
  let w := snd (writeInt 7 None (initialize 1 None)) in
  w = {| _buffer := [7]; _pos := 1; _endianness := BE |}
  /\ full w = true
  /\ writeRaw (Buf [9]) None w = (inl HostError, w)
  /\ writeRaw (Arr [JNum 9]) (Some {["safe" := JBool true]}) w
     = (inl HostError, {| _buffer := [7]; _pos := 2; _endianness := BE |})
  /\ writeInt 4294967296 None w = (inl RangeError, w)
  /\ writeInt 1 (Some {["size" := JNum 7]}) w = (inl SizeError, w).
Proof. vm_compute. repeat split. Qed.

(** ** C5: Validation of array writes *)

(** C5 (as the code has it): without [safe: true], the elements of a list
    are validated in order before any byte is written; the first element
    that is not a number raises an array-type error, the first number
    outside [-128, 255] raises a range error, and in both cases the writer
    is left as it was; [writeRaw([1,2,300])] raises a range error on its
    third element with the buffer unmodified. *)
Theorem C5_list_validation (l1 l2 : list jsval) (x : jsval)
    (opts : option (gmap string jsval)) (w : BitWriter) :
  opt_prop opts "safe" <> JBool true ->
  Forall (fun y => exists z, y = JNum z /\ -0x80 <= z <= 0xff) l1 ->
  ((forall z, x <> JNum z) ->
     writeRaw (Arr (l1 ++ x :: l2)) opts w = (inl ArrayTypeError, w))
  /\ (forall z, x = JNum z -> ~ (-0x80 <= z <= 0xff) ->
        writeRaw (Arr (l1 ++ x :: l2)) opts w = (inl RangeError, w))
  /\ writeRaw (Arr [JNum 1; JNum 2; JNum 300]) None (initialize 4 None)
     = (inl RangeError, initialize 4 None).
Proof.
  intros Hsafe Hl1.
  assert (Hstop : writeRaw_check (UNSIGNED_RANGE 8) (l1 ++ x :: l2)
                  = writeRaw_check (UNSIGNED_RANGE 8) (x :: l2)).
  { apply writeRaw_check_stops. eapply Forall_impl; [exact Hl1 |].
    intros y (z & -> & Hz). exists z. split; [done |]. by apply eight_bit_test. }
  unfold writeRaw. rewrite bool_decide_eq_false_2 by done. rewrite Hstop.
  split; [| split].
  - intros Hx. destruct x as [| b | z]; try done. by destruct (Hx z).
  - intros z -> Hz. simpl.
    destruct (Range.test (UNSIGNED_RANGE 8) z) eqn:Ht; [| done].
    apply eight_bit_test in Ht. lia.
  - reflexivity.
Qed.

Lemma C5_list_validation_witness :
  writeRaw (Arr ([JNum 7; JNum (-3)] ++ JBool true :: [JNum 1])) None (initialize 2 None)
  = (inl ArrayTypeError, initialize 2 None).
Proof.
  assert (Hsafe : opt_prop None "safe" <> JBool true) by (vm_compute; discriminate).
  assert (Hl1 : Forall (fun y => exists z, y = JNum z /\ -0x80 <= z <= 0xff)
                  [JNum 7; JNum (-3)]).
  { repeat constructor; eexists; (split; [reflexivity | lia]). }
  apply (C5_list_validation [JNum 7; JNum (-3)] [JNum 1] (JBool true) None
           (initialize 2 None) Hsafe Hl1).
  intros z; discriminate.
Defined.

(** C5, as stated, fails: [-1] is outside [0, 255], yet [writeRaw([-1])]
    passes the validation and raises no range error. *)
Lemma C5_counterexample :
  ~ (0 <= -1 <= 255)
  /\ writeRaw_check (UNSIGNED_RANGE 8) [JNum (-1)] = None
  /\ fst (writeRaw (Arr [JNum (-1)]) None (initialize 1 None)) <> inl RangeError.
Proof. split; [lia |]. split; [reflexivity | vm_compute; discriminate]. Qed.

(** ** C6: String writes with a size *)

(** C6 (as the code has it): a string write with an explicit size [N] that
    fits the remaining capacity writes exactly [N] bytes at the cursor and
    advances it by [N]: the first [N] bytes of the text when the text is
    longer than [N], the text followed by zero bytes up to [N] otherwise;
    two option objects with the same size give the same result, so the
    [null] option has no effect. *)
Theorem C6_sized_string (w : BitWriter) (s : string) (o : gmap string jsval) (N : Z) :
  prop o "size" = JNum N ->
  0 < N <= remaining w ->
  0 <= _pos w ->
  let text := Buffer.from_string s in
  let len := Z.of_nat (length text) in
  let written := if N <? len then take (Z.to_nat N) text
                 else text ++ replicate (Z.to_nat (N - len)) 0 in
  fst (writeString s (Some o) w) =
    (inr tt, {| _buffer := list_inserts (Z.to_nat (_pos w)) written (_buffer w);
                _pos := _pos w + N;
                _endianness := _endianness w |})
  /\ Z.of_nat (length written) = N
  /\ (forall o' : gmap string jsval,
        prop o' "size" = JNum N ->
        fst (writeString s (Some o') w) = fst (writeString s (Some o) w)).
Proof.
  intros Hsz HN Hpos text len written.
  assert (Hbody : forall o' : gmap string jsval,
            prop o' "size" = JNum N ->
            fst (writeString s (Some o') w) =
              (inr tt, {| _buffer := list_inserts (Z.to_nat (_pos w)) written (_buffer w);
                          _pos := _pos w + N;
                          _endianness := _endianness w |})).
  { intros o' Ho'. unfold writeString; simpl.
    rewrite (writeString_sized s _ w N); [done | | done | done].
    by rewrite resolved_size. }
  split_and!.
  - by apply Hbody.
  - unfold written. destruct (Z.ltb_spec N len).
    + rewrite length_take_le; lia.
    + rewrite length_app, length_replicate. lia.
  - intros o' Ho'. by rewrite !Hbody.
Qed.

Lemma C6_sized_string_witness :
  fst (writeString "hello" (Some {["size" := JNum 3]}) (initialize 4 None))
  = (inr tt, {| _buffer := [104; 101; 108; 0]; _pos := 3; _endianness := BE |}).
Proof.
  assert (Hsz : prop {["size" := JNum 3]} "size" = JNum 3) by (vm_compute; reflexivity).
  assert (HN : 0 < 3 <= remaining (initialize 4 None)) by (vm_compute; split; [reflexivity | discriminate]).
  assert (Hpos : 0 <= _pos (initialize 4 None)) by (simpl; lia).
  rewrite (proj1 (C6_sized_string (initialize 4 None) "hello" {["size" := JNum 3]} 3
                    Hsz HN Hpos)).
  reflexivity.
Defined.

(** C6, as stated, fails when [N] exceeds the remaining capacity: on a
    writer of length 2, [writeString("hello", {size: 4})] throws after two
    bytes have been copied, and the cursor has not moved. *)
Lemma C6_counterexample :
  fst (writeString "hello" (Some {["size" := JNum 4]}) (initialize 2 None))
  = (inl RangeError, {| _buffer := [104; 101]; _pos := 0; _endianness := BE |}).
Proof. vm_compute. reflexivity. Qed.

(** ** C7: String writes without a size *)

(** C7: for every string write without an explicit size, if the encoded
    length exceeds [remaining()] the write fails with an overflow error
    before writing anything; otherwise the text bytes are written at the
    cursor, followed, unless [null] is explicitly [false], by one zero byte
    when capacity remains, the terminator being omitted without error when
    the text fills the buffer exactly; the cursor advances by what was
    written.  On a fresh writer of length 5, [writeString("hi")] writes
    [h], [i], [0] and leaves [remaining()] at 2. *)
Theorem C7_unsized_string (w : BitWriter) (s : string) (opts : option (gmap string jsval)) :
  0 <= _pos w ->
  truthy (opt_prop opts "size") = false ->
  let text := Buffer.from_string s in
  let len := Z.of_nat (length text) in
  let term := if bool_decide (opt_prop opts "null" = JBool false) then []
              else if len <? remaining w then [0] else [] in
  (remaining w < len -> fst (writeString s opts w) = (inl OverflowError, w))
  /\ (len <= remaining w ->
        fst (writeString s opts w) =
          (inr tt, {| _buffer := list_inserts (Z.to_nat (_pos w)) (text ++ term) (_buffer w);
                      _pos := _pos w + len + Z.of_nat (length term);
                      _endianness := _endianness w |})
        /\ remaining (snd (fst (writeString s opts w)))
           = remaining w - len - Z.of_nat (length term))
  /\ fst (writeString "hi" None (initialize 5 None))
     = (inr tt, {| _buffer := [104; 105; 0; 0; 0]; _pos := 3; _endianness := BE |})
  /\ remaining (snd (fst (writeString "hi" None (initialize 5 None)))) = 2.
Proof.
  intros Hpos Hsz text len term.
  assert (Hbody := writeString_unsized s (writeString_opts opts) w).
  rewrite resolved_size in Hbody. specialize (Hbody Hsz Hpos).
  cbv zeta in Hbody. fold text len in Hbody.
  assert (Hterm : terminator (prop (writeString_opts opts) "null") len (remaining w) = term).
  { unfold terminator, term, NULL_BYTE.
    destruct (decide (opt_prop opts "null" = JBool false)) as [Hn | Hn].
    - rewrite !bool_decide_eq_true_2; [done.. |]. by apply resolved_null.
    - rewrite !bool_decide_eq_false_2; [done | done |]. by rewrite resolved_null. }
  rewrite Hterm in Hbody.
  unfold writeString; simpl. rewrite Hbody.
  split_and!; try reflexivity.
  - intros Hov. destruct (Z.ltb_spec (remaining w) len); [done | lia].
  - intros Hfit. destruct (Z.ltb_spec (remaining w) len); [lia |].
    split; [done |]. unfold remaining, length_; simpl. rewrite length_inserts. lia.
Qed.

Lemma C7_unsized_string_witness :
  fst (writeString "abc" (Some {["null" := JBool false]}) (initialize 2 None))
  = (inl OverflowError, initialize 2 None).
Proof.
  assert (Hpos : 0 <= _pos (initialize 2 None)) by (simpl; lia).
  assert (Hsz : truthy (opt_prop (Some {["null" := JBool false]}) "size") = false)
    by (vm_compute; reflexivity).
  apply (C7_unsized_string (initialize 2 None) "abc" (Some {["null" := JBool false]})
           Hpos Hsz).
  vm_compute. reflexivity.
Defined.

(** ** C8: Indexed access *)

(** C8 (as the code has it): for every offset [n] below the length, the
    indexed read returns the byte at [n]; the indexed assignment of [v]
    fails with a range error, leaving the writer as it was, unless [v] is
    within [-128, 255], and otherwise stores the low eight bits of [v]
    (that is [v] itself when it is in [0, 255]) at [n], whatever the cursor
    is, without moving it and without touching any other byte. *)
Theorem C8_indexed_access (w : BitWriter) (n : nat) (v : Z) :
  (n < length (_buffer w))%nat ->
  _makeArrayLike_get n w = _buffer w !! n
  /\ is_Some (_makeArrayLike_get n w)
  /\ (~ (-0x80 <= v <= 0xff) -> _makeArrayLike_set n v w = (inl RangeError, w))
  /\ (-0x80 <= v <= 0xff ->
        _makeArrayLike_set n v w =
          (inr tt, {| _buffer := <[n := v `mod` 256]> (_buffer w);
                      _pos := _pos w;
                      _endianness := _endianness w |}))
  /\ (0 <= v <= 0xff ->
        _makeArrayLike_get n (snd (_makeArrayLike_set n v w)) = Some v
        /\ forall k : nat, k <> n ->
             _buffer (snd (_makeArrayLike_set n v w)) !! k = _buffer w !! k).
Proof.
  intros Hn.
  assert (Hdec : bool_decide (n < length (_buffer w))%nat = true)
    by by apply bool_decide_eq_true.
  assert (Hset : -0x80 <= v <= 0xff ->
            _makeArrayLike_set n v w =
              (inr tt, {| _buffer := <[n := v `mod` 256]> (_buffer w);
                          _pos := _pos w;
                          _endianness := _endianness w |})).
  { intros Hv. unfold _makeArrayLike_set. rewrite Hdec.
    apply eight_bit_test in Hv. by rewrite Hv. }
  unfold _makeArrayLike_get at 1 2. rewrite Hdec. unfold Buffer.get.
  split; [done |]. split; [by apply lookup_lt_is_Some |].
  split; [| split; [exact Hset |]].
  - intros Hv. unfold _makeArrayLike_set. rewrite Hdec.
    destruct (Range.test (UNSIGNED_RANGE 8) v) eqn:Ht; [| done].
    apply eight_bit_test in Ht. lia.
  - intros Hv. rewrite Hset by lia. simpl. split.
    + unfold _makeArrayLike_get; simpl. rewrite length_insert, Hdec.
      unfold Buffer.get. rewrite list_lookup_insert_eq by done.
      by rewrite Z.mod_small by lia.
    + intros k Hk. by rewrite list_lookup_insert_ne.
Qed.

Lemma C8_indexed_access_witness :
  _makeArrayLike_get 1 (initialize 3 None) = _buffer (initialize 3 None) !! 1%nat
  /\ _makeArrayLike_set 1 200 (initialize 3 None)
     = (inr tt, {| _buffer := [0; 200; 0]; _pos := 0; _endianness := BE |}).
Proof.
  assert (Hn : (1 < length (_buffer (initialize 3 None)))%nat) by (simpl; lia).
  destruct (C8_indexed_access (initialize 3 None) 1 200 Hn) as (Hg & _ & _ & Hs & _).
  split; [exact Hg |]. rewrite Hs by lia. reflexivity.
Defined.

(** C8, as stated, fails: assigning [-1], which is outside [0, 255], raises
    no range error and stores 255. *)
Lemma C8_counterexample :
  ~ (0 <= -1 <= 255)
  /\ _makeArrayLike_set 0 (-1) (initialize 1 None)
     = (inr tt, {| _buffer := [255]; _pos := 0; _endianness := BE |}).
Proof. split; [lia | reflexivity]. Qed.

(** ** C9: The cursor invariant *)

(** C9 (as the code has it): a fresh writer satisfies [0 <= cursor <=
    length], and every operation other than [writeRaw] on an array with
    [safe: true] keeps it, whether the operation returns or throws, the
    length of the buffer being fixed; [position(p)] fails with a range
    error, leaving the cursor where it was, unless [0 <= p <= length], and
    otherwise replaces the cursor by [p]. *)
Theorem C9_cursor_invariant (w : BitWriter) (o : operation) (p : Z) :
  0 <= _pos w <= length_ w ->
  (forall (n : nat) (e : option endianness),
     0 <= _pos (initialize n e) <= length_ (initialize n e))
  /\ (safe_array_write o = false ->
        0 <= _pos (snd (run o w)) <= length_ (snd (run o w))
        /\ length_ (snd (run o w)) = length_ w)
  /\ (~ (0 <= p <= length_ w) -> position p w = (inl RangeError, w))
  /\ (0 <= p <= length_ w ->
        position p w =
          (inr tt, {| _buffer := _buffer w; _pos := p; _endianness := _endianness w |})).
Proof.
  intros Hw. split_and!.
  - intros n e. unfold initialize, length_; simpl. lia.
  - intros Hsafe. destruct (run_bounded o Hsafe w) as ((Hlen & _ & Hpos) & Hle).
    unfold length_ in *. rewrite Hlen. split; [| done].
    rewrite Hlen in Hle. split; [apply Hpos; lia | apply Hle; lia].
  - intros Hp. rewrite position_spec.
    destruct (Z.leb_spec 0 p), (Z.leb_spec p (length_ w)); simpl; try done. lia.
  - intros Hp. rewrite position_spec.
    destruct (Z.leb_spec 0 p), (Z.leb_spec p (length_ w)); simpl; try done; lia.
Qed.

Lemma C9_cursor_invariant_witness :
  0 <= _pos (snd (run (OpWriteString "hello" None) (initialize 3 None)))
    <= length_ (snd (run (OpWriteString "hello" None) (initialize 3 None))).
Proof.
  assert (Hw : 0 <= _pos (initialize 3 None) <= length_ (initialize 3 None))
    by (vm_compute; split; discriminate).
  destruct (C9_cursor_invariant (initialize 3 None) (OpWriteString "hello" None) 0 Hw)
    as (_ & Hrun & _).
  exact (proj1 (Hrun eq_refl)).
Defined.

(** C9, as stated, fails: on a writer of length 1, [writeRaw([1, 2], {safe:
    true})] throws on its second element and leaves the cursor at 2. *)
Lemma C9_counterexample :
  run (OpWriteRaw (Arr [JNum 1; JNum 2]) (Some {["safe" := JBool true]})) (initialize 1 None)
  = (inl HostError, {| _buffer := [1]; _pos := 2; _endianness := BE |})
  /\ ~ (_pos (snd (run (OpWriteRaw (Arr [JNum 1; JNum 2]) (Some {["safe" := JBool true]}))
                     (initialize 1 None)))
        <= length_ (snd (run (OpWriteRaw (Arr [JNum 1; JNum 2])
                                (Some {["safe" := JBool true]}))
                           (initialize 1 None)))).
Proof. split; [vm_compute; reflexivity | vm_compute; intros H; by apply H]. Qed.

(** ** C10: The options object of a string write *)

(** C10: [writeString(s, opts)] called with an options object that has no
    [null] key assigns [opts.null = true] on that very object, so the
    caller's object is not left as it was; the same holds through
    [write]. *)
Theorem C10_opts_mutated (s : string) (o : gmap string jsval) (w : BitWriter) :
  o !! "null" = None ->
  snd (writeString s (Some o) w) = Some (<["null" := JBool true]> o)
  /\ snd (writeString s (Some o) w) <> Some o
  /\ snd (write (Str s) (Some o) w) = Some (<["null" := JBool true]> o).
Proof.
  intros Hnull.
  assert (Hopts : writeString_opts (Some o) = <["null" := JBool true]> o).
  { unfold writeString_opts; simpl. rewrite Hnull.
    rewrite bool_decide_eq_false_2; [done |]. by intros [? ?]. }
  unfold write, writeString; simpl. rewrite Hopts.
  split; [done |]. split; [| done].
  intros [= Heq].
  assert (Hl : <["null" := JBool true]> o !! "null" = Some (JBool true))
    by apply lookup_insert_eq.
  rewrite Heq in Hl. congruence.
Qed.

Lemma C10_opts_mutated_witness :
  snd (writeString "hi" (Some {["size" := JNum 4]}) (initialize 5 None))
  = Some (<["null" := JBool true]> {["size" := JNum 4]}).
Proof.
  assert (Hnull : ({["size" := JNum 4]} : gmap string jsval) !! "null" = None)
    by (vm_compute; reflexivity).
  exact (proj1 (C10_opts_mutated "hi" {["size" := JNum 4]} (initialize 5 None) Hnull)).
Defined.

(** * Further properties of the code *)

(** ** Cursor operations *)

(** X1: [reset()] never fails and takes any writer, even one whose cursor
    ran past the end, to the state of a freshly constructed writer of the
    same length and endianness. *)
Theorem X1_reset_fresh (w : BitWriter) :
  reset w = (inr tt, initialize (length (_buffer w)) (Some (_endianness w)))
  /\ remaining (snd (reset w)) = length_ w
  /\ reachable (initialize (length (_buffer w)) (Some (_endianness w))).
Proof.
  assert (Hreset : reset w
                   = (inr tt, initialize (length (_buffer w)) (Some (_endianness w)))).
  { unfold reset, bind, on_buffer. cbn [_buffer _pos _endianness].
    rewrite position_spec. unfold length_, Buffer.fill0; simpl.
    rewrite length_replicate.
    destruct (Z.leb_spec 0 (Z.of_nat (length (_buffer w)))); [done | lia]. }
  rewrite Hreset. split_and!; [done | | constructor].
  unfold remaining, length_, initialize, Buffer.zeroed; simpl.
  rewrite length_replicate. lia.
Qed.

(** X2: [move(amount)] fails with a range error, leaving the writer as it
    was, unless the target [cursor + amount] lies in [0, length]; two moves
    whose targets both lie in the buffer act as one move by the sum, so on
    a writer whose cursor is within the buffer a successful move followed
    by the opposite move gives the writer back. *)
Theorem X2_move_compose (w : BitWriter) (a b : Z) :
  (~ (0 <= _pos w + a <= length_ w) -> move a w = (inl RangeError, w))
  /\ (0 <= _pos w + a <= length_ w ->
      0 <= _pos w + a + b <= length_ w ->
      (move a ;;; move b) w = move (a + b) w
      /\ (move a ;;; move b) w =
           (inr tt, {| _buffer := _buffer w; _pos := _pos w + a + b;
                       _endianness := _endianness w |}))
  /\ (0 <= _pos w + a <= length_ w ->
      0 <= _pos w <= length_ w ->
      (move a ;;; move (- a)) w = (inr tt, w)).
Proof.
  assert (Hmove : forall (w0 : BitWriter) (c : Z),
            0 <= _pos w0 + c <= length_ w0 ->
            move c w0 = (inr tt, {| _buffer := _buffer w0; _pos := _pos w0 + c;
                                    _endianness := _endianness w0 |})).
  { intros w0 c Hc. unfold move, bind, get_position. rewrite position_spec.
    destruct (Z.leb_spec 0 (_pos w0 + c)), (Z.leb_spec (_pos w0 + c) (length_ w0));
      simpl; try done; lia. }
  assert (Htwo : forall c : Z,
            0 <= _pos w + a <= length_ w ->
            0 <= _pos w + a + c <= length_ w ->
            (move a ;;; move c) w =
              (inr tt, {| _buffer := _buffer w; _pos := _pos w + a + c;
                          _endianness := _endianness w |})).
  { intros c Ha Hc. unfold bind. rewrite (Hmove w a Ha). by rewrite Hmove. }
  split_and!.
  - intros Hout. unfold move, bind, get_position. rewrite position_spec.
    destruct (Z.leb_spec 0 (_pos w + a)), (Z.leb_spec (_pos w + a) (length_ w));
      simpl; try done; lia.
  - intros Ha Hb. rewrite (Htwo b Ha Hb). split; [| done].
    rewrite Hmove by lia. do 2 f_equal. lia.
  - intros Ha Hw. rewrite (Htwo (- a) Ha) by lia.
    destruct w as [buf pos e]; simpl. do 2 f_equal. lia.
Qed.

Lemma X2_move_compose_witness :
  (move 2 ;;; move (- 2)) (initialize 3 None) = (inr tt, initialize 3 None).
Proof.
  apply (X2_move_compose (initialize 3 None) 2 0); vm_compute; split; discriminate.
Defined.

(** ** Integer writes *)

Lemma write_error_host (m : bufmethod) (b : list Z) (v : jsval) (offset : Z) (e : error) :
  Buffer.write m b v offset = inl e -> e = HostError.
Proof. unfold Buffer.write. repeat case_match; by intros [= <-]. Qed.

Lemma range_test_32 (v : Z) :
  Range.test (UNSIGNED_RANGE 32) v = true <-> - 2 ^ 31 <= v < 2 ^ 32.
Proof.
  unfold Range.test, UNSIGNED_RANGE; simpl.
  rewrite andb_true_iff, !Z.leb_le. lia.
Qed.

Lemma writeInt_type_errors (e : endianness) (v : Z)
    (opts : option (gmap string jsval)) (err : error) :
  writeInt_type (_generateMethodTable e) v opts = inl err ->
  (err = RangeError /\ ~ (- 2 ^ 31 <= v < 2 ^ 32))
  \/ (err = SizeError /\ - 2 ^ 31 <= v < 2 ^ 32
      /\ truthy (opt_prop opts "size") = true
      /\ valid_size (opt_prop opts "size") = false).
Proof.
  destruct (Range.test (UNSIGNED_RANGE 32) v) eqn:Hr.
  - apply range_test_32 in Hr. right.
    destruct (truthy (opt_prop opts "size")) eqn:Ht.
    + destruct (valid_size (opt_prop opts "size")) eqn:Hvs.
      * destruct (select_total e v opts Hr (or_intror Hvs)) as [m Hm]. congruence.
      * rewrite sized_select, Hvs in H by done. by injection H as <-.
    + destruct (select_total e v opts Hr (or_introl Ht)) as [m Hm]. congruence.
  - left. unfold writeInt_type in H. rewrite Hr in H. simpl in H.
    injection H as <-. split; [done |]. rewrite <- range_test_32. congruence.
Qed.

(** X3: [writeInt] fails with a range error, whatever the options and the
    state of the writer, when the value is outside [-2^31, 2^32 - 1]; its
    failures are range, size, overflow and platform errors only, so the
    dispatch error is never raised; and, on a writer whose cursor is not
    negative, a value of the range written without a size can fail by
    overflow only. *)
Theorem X3_writeInt_failures (v : Z) (opts : option (gmap string jsval)) (w : BitWriter) :
  (~ (- 2 ^ 31 <= v < 2 ^ 32) -> writeInt v opts w = (inl RangeError, w))
  /\ (forall e : error,
        fst (writeInt v opts w) = inl e ->
        e = RangeError \/ e = SizeError \/ e = OverflowError \/ e = HostError)
  /\ (0 <= _pos w ->
      - 2 ^ 31 <= v < 2 ^ 32 ->
      truthy (opt_prop opts "size") = false ->
      forall e : error, fst (writeInt v opts w) = inl e -> e = OverflowError).
Proof.
  split_and!.
  - intros Hout. unfold writeInt, writeInt_type, _methods.
    destruct (Range.test (UNSIGNED_RANGE 32) v) eqn:Hr; [| done].
    apply range_test_32 in Hr. lia.
  - intros e. destruct (writeInt_type (_methods w) v opts) as [err | m] eqn:Hsel.
    + unfold writeInt. rewrite Hsel. simpl. intros [= <-].
      apply writeInt_type_errors in Hsel as [[-> _] | [-> _]]; auto.
    + rewrite (writeInt_selected v opts w m Hsel).
      destruct (_ <? _); [simpl; intros [= <-]; auto |].
      destruct (Buffer.write _ _ _ _) as [err | b] eqn:Hw.
      * simpl. intros [= <-]. apply write_error_host in Hw. auto.
      * rewrite position_spec. destruct (_ && _); simpl; [done |]. intros [= <-]. auto.
  - intros Hpos Hv Hsz e.
    pose proof (auto_select (_endianness w) v opts Hv Hsz) as Hsel.
    set (m := if (0 <=? v) && (v <=? 0xff) then _ else _) in Hsel.
    assert (Hin : m ∈ _generateMethodTable (_endianness w))
      by (eapply writeInt_type_in_table, Hsel).
    destruct (table_consistent _ m Hin) as (Hlen & Hlo & Hhi).
    assert (Hfits : Buffer.lower (method m) <= v <= Buffer.upper (method m)).
    { rewrite <- Hlo, <- Hhi. subst m. zcases; simpl; lia. }
    rewrite (writeInt_selected v opts w m Hsel).
    destruct (Z.ltb_spec (remaining w) (byte_length m)); [simpl; by intros [= <-] |].
    unfold Buffer.write, remaining, length_ in *.
    destruct (Z.leb_spec 0 (_pos w)); [| lia].
    destruct (Z.leb_spec (_pos w + Z.of_nat (Buffer.width (method m)))
                (Z.of_nat (length (_buffer w)))); [| lia].
    destruct (Z.leb_spec (Buffer.lower (method m)) v); [| lia].
    destruct (Z.leb_spec v (Buffer.upper (method m))); [| lia].
    simpl. rewrite position_spec. unfold length_; simpl. rewrite length_inserts.
    destruct (Z.leb_spec 0 (_pos w + byte_length m)); [| lia].
    destruct (Z.leb_spec (_pos w + byte_length m) (Z.of_nat (length (_buffer w))));
      [done | lia].
Qed.

Lemma X3_writeInt_failures_witness :
  writeInt (2 ^ 32) (Some {["size" := JNum 7]}) (initialize 0 None)
  = (inl RangeError, initialize 0 None).
Proof.
  apply X3_writeInt_failures. lia.
Defined.

(** X14: every operation, the unchecked array write and the failing calls
    included, keeps the length of the buffer and the endianness of the
    writer, and never makes the cursor negative. *)
Theorem X14_shape_kept (o : operation) (w : BitWriter) :
  length (_buffer (snd (run o w))) = length (_buffer w)
  /\ _endianness (snd (run o w)) = _endianness w
  /\ (0 <= _pos w -> 0 <= _pos (snd (run o w))).
Proof. exact (run_sized o w). Qed.

Lemma X14_shape_kept_witness :
  0 <= _pos (snd (run (OpWriteRaw (Arr [JNum 1; JNum 2]) (Some {["safe" := JBool true]}))
                    (initialize 1 None))).
Proof.
  apply X14_shape_kept. simpl. lia.
Defined.

(** ** Array writes *)

Lemma writeRaw_check_passes (l : list jsval) :
  Forall (fun x => exists z, x = JNum z /\ -0x80 <= z <= 0xff) l ->
  writeRaw_check (UNSIGNED_RANGE 8) l = None.
Proof.
  induction 1 as [| x l' (z & -> & Hz) _ IH]; [done |].
  simpl. apply eight_bit_test in Hz. by rewrite Hz.
Qed.

(** X15: [writeRaw] on an array without [safe: true] never writes: it
    always throws, leaving the writer as it was, an array-type or range
    error when an element fails the validation and a reference error (the
    unbound identifier [array]) when every element passes; the same holds
    through [write] and through [write8]. *)
Theorem X15_unchecked_array_never_written (l : list jsval)
    (opts : option (gmap string jsval)) (w : BitWriter) :
  opt_prop opts "safe" <> JBool true ->
  (exists e : error,
     writeRaw (Arr l) opts w = (inl e, w)
     /\ fst (write (Raw (Arr l)) opts w) = (inl e, w)
     /\ (e = ArrayTypeError \/ e = RangeError \/ e = ReferenceError)
     /\ (Forall (fun x => exists z, x = JNum z /\ -0x80 <= z <= 0xff) l ->
         e = ReferenceError))
  /\ exists e : error, fst (write8 (Raw (Arr l)) w) = (inl e, w).
Proof.
  intros Hsafe.
  assert (Hgen : forall opts' : option (gmap string jsval),
            opt_prop opts' "safe" <> JBool true ->
            exists e : error,
              writeRaw (Arr l) opts' w = (inl e, w)
              /\ (e = ArrayTypeError \/ e = RangeError \/ e = ReferenceError)
              /\ (writeRaw_check (UNSIGNED_RANGE 8) l = None -> e = ReferenceError)).
  { intros opts' Hs. unfold writeRaw. rewrite bool_decide_eq_false_2 by done.
    destruct (writeRaw_check _ l) as [e |] eqn:E.
    - exists e. split; [done |]. split; [| done].
      apply writeRaw_check_kinds in E as [-> | ->]; auto.
    - exists ReferenceError. split_and!; auto. }
  split.
  - destruct (Hgen opts Hsafe) as (e & Hrun & Hkind & Hok).
    exists e. split_and!; try done.
    intros Hall. by apply Hok, writeRaw_check_passes.
  - destruct (Hgen (Some {["size" := JNum 8]})) as (e & Hrun & _).
    { vm_compute. discriminate. }
    exists e. unfold write8, write, write_other. by rewrite Hrun.
Qed.

Lemma X15_unchecked_array_never_written_witness :
  exists e : error,
    writeRaw (Arr [JNum 1; JNum 2; JNum 3]) None (initialize 4 None)
    = (inl e, initialize 4 None).
Proof.
  assert (Hsafe : opt_prop None "safe" <> JBool true) by (vm_compute; discriminate).
  destruct (X15_unchecked_array_never_written [JNum 1; JNum 2; JNum 3] None
              (initialize 4 None) Hsafe) as [(e & Hrun & _) _].
  by exists e.
Defined.

(** ** Attachment *)

Lemma attach_lookup {R} (this : R) (obj : gmap string (member R)) (k : string) :
  attach this obj !! k =
    if bool_decide (k ∈ ["write"; "writeInt"; "writeString"; "writeRaw";
                         "write8"; "write16"; "write32"])
    then Some (Bound this k)
    else obj !! k.
Proof.
  unfold attach.
  change (List.filter (String.prefix "write") prototype_keys)
    with ["write"; "writeInt"; "writeString"; "writeRaw"; "write8"; "write16"; "write32"].
  cbn [foldl]. rewrite !lookup_insert.
  case_bool_decide as Hk.
  - repeat (apply elem_of_cons in Hk as [-> | Hk];
            [repeat case_decide; done |]).
    by apply elem_of_nil in Hk.
  - repeat case_decide; try done; subst k; exfalso; apply Hk; in_table.
Qed.

(** X16: [attach(obj)] assigns on [obj] exactly the seven keys [write],
    [writeInt], [writeString], [writeRaw], [write8], [write16] and
    [write32], each bound to the attaching writer, replacing what [obj] had
    under these keys and leaving every other key of [obj] alone; attaching
    a second writer to the same object replaces every method of the
    first. *)
Theorem X16_attach {R} (this that : R) (obj : gmap string (member R)) (k : string) :
  attach this obj !! k =
    (if bool_decide (k ∈ ["write"; "writeInt"; "writeString"; "writeRaw";
                          "write8"; "write16"; "write32"])
     then Some (Bound this k)
     else obj !! k)
  /\ attach that (attach this obj) = attach that obj
  /\ attach this obj !! "remaining" = obj !! "remaining"
  /\ attach this obj !! "position" = obj !! "position".
Proof.
  split_and!.
  - apply attach_lookup.
  - apply map_eq. intros j. rewrite !attach_lookup. by case_bool_decide.
  - by rewrite attach_lookup.
  - by rewrite attach_lookup.
Qed.

(** ** Integer writes with an explicit size *)

(** Evaluate the closed quotients and powers of the goal. *)
Ltac closed_consts :=
  repeat match goal with
    | |- context [?a `div` 8] =>
        let r := eval vm_compute in (a `div` 8) in change (a `div` 8) with r
    | |- context [2 ^ ?a] =>
        let r := eval vm_compute in (2 ^ a) in change (2 ^ a) with r
    end.

(** X4: on a writer whose cursor is not negative, [writeInt(v, {size: s})]
    with [s] in {8, 16, 32} and [v] in the 32-bit range first checks the
    capacity (overflow error when fewer than [s / 8] bytes remain); it then
    succeeds exactly when [-2^(s-1) <= v <= 2^s - 1], storing the [s / 8]
    bytes of [v] in the byte order of the writer and advancing the cursor
    by [s / 8]; a value that does not fit the width is refused by the
    platform, not by a range error, and the writer is left as it was. *)
Theorem X4_sized_integer (w : BitWriter) (v s : Z) (opts : option (gmap string jsval)) :
  0 <= _pos w ->
  opt_prop opts "size" = JNum s ->
  s ∈ INT_SIZES ->
  - 2 ^ 31 <= v < 2 ^ 32 ->
  let n := s `div` 8 in
  let bytes := match _endianness w with
               | LE => Buffer.le_bytes (Z.to_nat n) v
               | BE => reverse (Buffer.le_bytes (Z.to_nat n) v)
               end in
  writeInt v opts w =
    if remaining w <? n then (inl OverflowError, w)
    else if (- 2 ^ (s - 1) <=? v) && (v <=? 2 ^ s - 1)
    then (inr tt, {| _buffer := list_inserts (Z.to_nat (_pos w)) bytes (_buffer w);
                     _pos := _pos w + n;
                     _endianness := _endianness w |})
    else (inl HostError, w).
Proof.
  intros Hpos Hs Hin Hv n bytes. subst n bytes.
  assert (Hvalid : valid_size (opt_prop opts "size") = true)
    by (rewrite Hs; by apply bool_decide_eq_true).
  assert (Ht : truthy (opt_prop opts "size") = true).
  { apply valid_size_inv in Hvalid as [-> | [-> | ->]]; done. }
  pose proof (sized_select (_endianness w) v opts Hv Ht) as Hsel.
  rewrite Hvalid, Hs in Hsel. cbn [to_number] in Hsel.
  destruct w as [buf pos e]. cbn [_pos _buffer _endianness] in *.
  unfold INT_SIZES in Hin.
  repeat (apply elem_of_cons in Hin as [-> | Hin];
    [ destruct (Z.ltb_spec 0 v); simpl in Hsel;
      rewrite (writeInt_selected v opts (mkBitWriter buf pos e) _ Hsel);
      unfold Buffer.write, remaining, length_;
      cbn [_pos _buffer _endianness method byte_length Buffer.width Buffer.lower
           Buffer.upper Buffer.encode Buffer.order];
      closed_consts;
      destruct e; simpl; zcases; simpl;
      rewrite ?position_spec; unfold length_; simpl;
      rewrite ?length_insert, ?length_inserts; zcases; simpl;
      try reflexivity; try lia |]).
  by apply elem_of_nil in Hin.
Qed.

Lemma X4_sized_integer_witness :
  writeInt 200 (Some {["size" := JNum 8]}) (initialize 2 (Some LE))
  = (inr tt, {| _buffer := [200; 0]; _pos := 1; _endianness := LE |})
  /\ writeInt 300 (Some {["size" := JNum 8]}) (initialize 2 (Some LE))
     = (inl HostError, initialize 2 (Some LE)).
Proof.
  assert (Hpos : 0 <= _pos (initialize 2 (Some LE))) by (simpl; lia).
  assert (Hs : opt_prop (Some {["size" := JNum 8]}) "size" = JNum 8)
    by (vm_compute; reflexivity).
  assert (Hin : 8 ∈ INT_SIZES) by in_table.
  split.
  - assert (Hv : - 2 ^ 31 <= 200 < 2 ^ 32) by lia.
    rewrite (X4_sized_integer _ 200 8 _ Hpos Hs Hin Hv). reflexivity.
  - assert (Hv : - 2 ^ 31 <= 300 < 2 ^ 32) by lia.
    rewrite (X4_sized_integer _ 300 8 _ Hpos Hs Hin Hv). reflexivity.
Defined.

(** ** The sized shorthands on strings *)

(** X5: [write8], [write16] and [write32] pass [{size: 8}], [{size: 16}]
    and [{size: 32}] to [write]; on a string the size counts bytes, not
    bits, so with room left they write exactly 8, 16 and 32 bytes (the text
    cut or padded with zeros) and advance the cursor by as much. *)
Theorem X5_sized_shorthands_on_strings (w : BitWriter) (s : string) :
  0 <= _pos w ->
  let text := Buffer.from_string s in
  let written (N : Z) :=
    if N <? Z.of_nat (length text) then take (Z.to_nat N) text
    else text ++ replicate (Z.to_nat (N - Z.of_nat (length text))) 0 in
  let result (N : Z) :=
    (inr tt, {| _buffer := list_inserts (Z.to_nat (_pos w)) (written N) (_buffer w);
                _pos := _pos w + N;
                _endianness := _endianness w |}) in
  (8 <= remaining w -> fst (write8 (Str s) w) = result 8)
  /\ (16 <= remaining w -> fst (write16 (Str s) w) = result 16)
  /\ (32 <= remaining w -> fst (write32 (Str s) w) = result 32)
  /\ (forall N : Z, 0 < N -> Z.of_nat (length (written N)) = N).
Proof.
  intros Hpos text written result.
  assert (Hgen : forall N : Z,
            0 < N <= remaining w ->
            fst (writeString s (Some {["size" := JNum N]}) w) = result N).
  { intros N HN. unfold writeString; simpl.
    apply (writeString_sized s _ w N); [| done | done].
    rewrite resolved_size. unfold opt_prop, prop. by rewrite lookup_singleton_eq. }
  split_and!.
  - intros Hroom. apply Hgen. lia.
  - intros Hroom. apply Hgen. lia.
  - intros Hroom. apply Hgen. lia.
  - intros N HN. unfold written. destruct (Z.ltb_spec N (Z.of_nat (length text))).
    + rewrite length_take_le; lia.
    + rewrite length_app, length_replicate. lia.
Qed.

Lemma X5_sized_shorthands_on_strings_witness :
  fst (write8 (Str "hi") (initialize 9 None))
  = (inr tt, {| _buffer := [104; 105; 0; 0; 0; 0; 0; 0; 0]; _pos := 8;
                _endianness := BE |}).
Proof.
  assert (Hpos : 0 <= _pos (initialize 9 None)) by (simpl; lia).
  destruct (X5_sized_shorthands_on_strings (initialize 9 None) "hi" Hpos) as (H8 & _).
  rewrite H8 by (vm_compute; discriminate). reflexivity.
Defined.

(** ** Reading back what was written *)

Lemma le_value_le_bytes (n : nat) (v : Z) :
  le_value (Buffer.le_bytes n v) = v `mod` 256 ^ Z.of_nat n.
Proof.
  revert v. induction n as [| n IH]; intros v.
  - simpl. by rewrite Z.mod_1_r.
  - cbn [Buffer.le_bytes le_value foldr]. fold (le_value (Buffer.le_bytes n (v `div` 256))).
    rewrite IH, Nat2Z.inj_succ, Z.pow_succ_r by lia.
    rewrite Z.rem_mul_r; [done | lia |]. apply Z.pow_pos_nonneg; lia.
Qed.

Lemma mod_negative (v M : Z) : - M <= v < 0 -> v `mod` M = v + M.
Proof.
  intros Hv. rewrite <- (Z.mod_add v 1 M) by lia.
  rewrite Z.mod_small; lia.
Qed.

Lemma decode_encode (m : bufmethod) (v : Z) :
  Buffer.lower m <= v <= Buffer.upper m -> decode m (Buffer.encode m v) = v.
Proof.
  intros Hv. unfold decode, Buffer.encode.
  assert (Hval : le_value (match Buffer.order m with
                           | LE => match Buffer.order m with
                                   | LE => Buffer.le_bytes (Buffer.width m) v
                                   | BE => reverse (Buffer.le_bytes (Buffer.width m) v)
                                   end
                           | BE => reverse (match Buffer.order m with
                                            | LE => Buffer.le_bytes (Buffer.width m) v
                                            | BE => reverse (Buffer.le_bytes (Buffer.width m) v)
                                            end)
                           end) = v `mod` 256 ^ Z.of_nat (Buffer.width m)).
  { destruct (Buffer.order m); rewrite ?reverse_involutive; apply le_value_le_bytes. }
  cbv zeta. rewrite Hval. clear Hval.
  destruct m as [| e | e | | e | e]; cbn [Buffer.signed Buffer.width andb] in *;
    simpl in Hv.
  1-3: rewrite Z.mod_small; [done | simpl; lia].
  all: destruct (Z.neg_nonneg_cases v) as [Hneg | Hnn];
    [ rewrite mod_negative by (simpl; lia);
      match goal with |- context [?a <=? ?b] => destruct (Z.leb_spec a b) end;
      simpl in *; lia
    | rewrite Z.mod_small by (simpl; lia);
      match goal with |- context [?a <=? ?b] => destruct (Z.leb_spec a b) end;
      simpl in *; lia ].
Qed.

Lemma window_inserts (w : BitWriter) (k : list Z) :
  0 <= _pos w ->
  _pos w + Z.of_nat (length k) <= length_ w ->
  take (length k) (drop (Z.to_nat (_pos w))
                     (list_inserts (Z.to_nat (_pos w)) k (_buffer w))) = k.
Proof.
  intros Hpos Hfit. unfold length_ in Hfit. apply list_eq. intros i.
  destruct (decide (i < length k)%nat) as [Hi | Hi].
  - rewrite lookup_take_lt, lookup_drop by done.
    rewrite list_lookup_inserts by lia. f_equal. lia.
  - rewrite lookup_take_ge by lia. symmetry. apply lookup_ge_None. lia.
Qed.

(** X6: an integer write that succeeds is lossless: the bytes it leaves
    between the old and the new cursor, read back with the reader matching
    the selected entry (same width, signedness and byte order), give the
    value written. *)
Theorem X6_integer_round_trip (w : BitWriter) (v : Z)
    (opts : option (gmap string jsval)) (m : entry) :
  0 <= _pos w ->
  writeInt_type (_methods w) v opts = inr m ->
  fst (writeInt v opts w) = inr tt ->
  decode (method m) (window (snd (writeInt v opts w)) (_pos w) (byte_length m)) = v
  /\ _pos (snd (writeInt v opts w)) = _pos w + byte_length m.
Proof.
  intros Hpos Hsel. rewrite (writeInt_selected v opts w m Hsel).
  destruct (Z.ltb_spec (remaining w) (byte_length m)) as [| Hroom]; [done |].
  apply writeInt_type_in_table, table_consistent in Hsel as (Hlen & _ & _).
  unfold Buffer.write.
  destruct (Z.leb_spec 0 (_pos w)); [| lia].
  destruct (Z.leb_spec (_pos w + Z.of_nat (Buffer.width (method m)))
              (Z.of_nat (length (_buffer w)))) as [Hfit |]; [| done].
  simpl.
  destruct (Z.leb_spec (Buffer.lower (method m)) v); [| done].
  destruct (Z.leb_spec v (Buffer.upper (method m))); [| done].
  simpl. rewrite position_spec. unfold length_; simpl. rewrite length_inserts.
  destruct (Z.leb_spec 0 (_pos w + byte_length m)); [| lia].
  destruct (Z.leb_spec (_pos w + byte_length m) (Z.of_nat (length (_buffer w))));
    [| lia].
  simpl. intros _. split; [| done].
  unfold window; simpl. rewrite Hlen, Nat2Z.id.
  rewrite <- (length_encode (method m) v) at 1.
  rewrite window_inserts; [by apply decode_encode | done |].
  unfold length_. rewrite length_encode. lia.
Qed.

Lemma X6_integer_round_trip_witness :
  decode (writeInt16 LE)
    (window (snd (writeInt (-2) (Some {["size" := JNum 16]}) (initialize 2 (Some LE)))) 0 2)
  = -2.
Proof.
  assert (Hpos : 0 <= _pos (initialize 2 (Some LE))) by (simpl; lia).
  assert (Hsel : writeInt_type (_methods (initialize 2 (Some LE))) (-2)
                   (Some {["size" := JNum 16]})
                 = inr (mkEntry (writeInt16 LE) 2 (-0x8000) 0x7fff))
    by (vm_compute; reflexivity).
  assert (Hok : fst (writeInt (-2) (Some {["size" := JNum 16]}) (initialize 2 (Some LE)))
                = inr tt) by (vm_compute; reflexivity).
  exact (proj1 (X6_integer_round_trip _ _ _ _ Hpos Hsel Hok)).
Defined.

(** ** Endianness *)

Lemma endian_blind_ret {A} (a : A) : endian_blind (ret a).
Proof. by intros e w. Qed.

Lemma endian_blind_throw {A} (err : error) : endian_blind (@throw A err).
Proof. by intros e w. Qed.

Lemma endian_blind_bind {A B} (m : M A) (k : A -> M B) :
  endian_blind m -> (forall a, endian_blind (k a)) -> endian_blind (bind m k).
Proof.
  intros Hm Hk e w. unfold bind. rewrite Hm.
  destruct (m w) as [[err | a] w']; simpl; [done | apply Hk].
Qed.

Lemma endian_blind_get_position : endian_blind get_position.
Proof. by intros e w. Qed.

Lemma endian_blind_position (p : Z) : endian_blind (position p).
Proof.
  intros e w. unfold position, with_endianness, length_, throw; simpl.
  by destruct (_ || _).
Qed.

Lemma endian_blind_move (amount : Z) : endian_blind (move amount).
Proof.
  apply endian_blind_bind; [apply endian_blind_get_position |].
  intros pos. apply endian_blind_position.
Qed.

Lemma endian_blind_on_buffer (f : list Z -> error + list Z) : endian_blind (on_buffer f).
Proof.
  intros e w. unfold on_buffer, with_endianness; simpl.
  by destruct (f (_buffer w)).
Qed.

Lemma endian_blind__copyBuffer (buf : list Z) : endian_blind (_copyBuffer buf).
Proof.
  apply endian_blind_bind; [apply endian_blind_get_position |].
  intros pos. apply endian_blind_bind; [apply endian_blind_on_buffer |].
  intros _. apply endian_blind_move.
Qed.

Lemma endian_blind_writeRaw_safe (arry : list jsval) : endian_blind (writeRaw_safe arry).
Proof.
  induction arry as [| x rest IH]; simpl; [apply endian_blind_ret |].
  apply endian_blind_bind; [by intros e w |].
  intros n. apply endian_blind_bind; [apply endian_blind_on_buffer | done].
Qed.

Lemma endian_blind_writeRaw (arry : raw) (opts : option (gmap string jsval)) :
  endian_blind (writeRaw arry opts).
Proof.
  destruct arry as [b | l]; simpl; [apply endian_blind__copyBuffer |].
  case_match; [apply endian_blind_writeRaw_safe |].
  case_match; apply endian_blind_throw.
Qed.

Lemma endian_blind_writeString_body (s : string) (o : gmap string jsval) :
  endian_blind (writeString_body s o).
Proof.
  unfold writeString_body. destruct (truthy (prop o "size")).
  - destruct (_ <? _).
    + destruct (Buffer.slice _ _ _); [apply endian_blind_throw |].
      apply endian_blind__copyBuffer.
    + apply endian_blind__copyBuffer.
  - intros e w. change (remaining (with_endianness e w)) with (remaining w).
    destruct (_ <? _); [done |].
    revert e w. apply endian_blind_bind; [apply endian_blind__copyBuffer |].
    intros _ e w. change (remaining (with_endianness e w)) with (remaining w).
    destruct (_ && _); [apply endian_blind__copyBuffer | done].
Qed.

(** The selection made under one byte order is, under another, the entry
    of the same width and signedness. *)
Lemma select_retarget (e e' : endianness) (v : Z)
    (opts : option (gmap string jsval)) (m : entry) :
  writeInt_type (_generateMethodTable e) v opts = inr m ->
  writeInt_type (_generateMethodTable e') v opts = inr (retarget e' m).
Proof.
  unfold writeInt_type.
  destruct (negb _); [done |].
  destruct (truthy _).
  - destruct (negb _); [done |].
    unfold bySize. repeat case_match; simplify_eq/=; try done.
    all: intros [= <-]; reflexivity.
  - unfold test, gentestInt, between, _generateMethodTable; simpl.
    repeat case_match; simplify_eq/=; try done.
    all: intros [= <-]; reflexivity.
Qed.

Lemma encode_retarget (m : bufmethod) (v : Z) :
  Buffer.encode (retarget_method LE m) v = reverse (Buffer.encode (retarget_method BE m) v).
Proof.
  destruct m; unfold Buffer.encode; simpl; try done;
    by rewrite reverse_involutive.
Qed.

(** A successful integer write, spelled out. *)
Lemma writeInt_success (w : BitWriter) (v : Z) (opts : option (gmap string jsval)) (m : entry) :
  writeInt_type (_methods w) v opts = inr m ->
  0 <= _pos w ->
  (fst (writeInt v opts w) = inr tt <->
     byte_length m <= remaining w
     /\ Buffer.lower (method m) <= v <= Buffer.upper (method m))
  /\ (fst (writeInt v opts w) = inr tt ->
      snd (writeInt v opts w) =
        {| _buffer := list_inserts (Z.to_nat (_pos w)) (Buffer.encode (method m) v)
                        (_buffer w);
           _pos := _pos w + byte_length m;
           _endianness := _endianness w |}).
Proof.
  intros Hsel Hpos. rewrite (writeInt_selected v opts w m Hsel).
  apply writeInt_type_in_table, table_consistent in Hsel as (Hlen & _ & _).
  destruct (Z.ltb_spec (remaining w) (byte_length m)) as [| Hroom].
  { simpl. split; [split; [done | lia] | done]. }
  unfold Buffer.write, remaining, length_ in *.
  destruct (Z.leb_spec 0 (_pos w)); [| lia].
  destruct (Z.leb_spec (_pos w + Z.of_nat (Buffer.width (method m)))
              (Z.of_nat (length (_buffer w)))); [| lia].
  simpl.
  destruct (Z.leb_spec (Buffer.lower (method m)) v);
    destruct (Z.leb_spec v (Buffer.upper (method m))); simpl;
    try (split; [split; [done | lia] | done]).
  rewrite position_spec. unfold length_; simpl. rewrite length_inserts.
  destruct (Z.leb_spec 0 (_pos w + byte_length m)); [| lia].
  destruct (Z.leb_spec (_pos w + byte_length m) (Z.of_nat (length (_buffer w))));
    [| lia].
  simpl. split; [split; [lia | done] | done].
Qed.

(** X7: the endianness of the writer has no effect on raw and string
    writes (same outcome, same bytes, same cursor), and an integer write
    that succeeds on the big-endian writer succeeds on the little-endian
    one, advancing the cursor as much and storing the same bytes in the
    opposite order. *)
Theorem X7_endianness (w : BitWriter) (e : endianness) :
  (forall (r : raw) (opts : option (gmap string jsval)),
     writeRaw r opts (with_endianness e w)
     = (fst (writeRaw r opts w), with_endianness e (snd (writeRaw r opts w))))
  /\ (forall (s : string) (opts : option (gmap string jsval)),
        fst (writeString s opts (with_endianness e w))
        = (fst (fst (writeString s opts w)),
           with_endianness e (snd (fst (writeString s opts w)))))
  /\ (forall (v : Z) (opts : option (gmap string jsval)),
        0 <= _pos w ->
        fst (writeInt v opts (with_endianness BE w)) = inr tt ->
        exists bs : list Z,
          writeInt v opts (with_endianness BE w)
          = (inr tt, {| _buffer := list_inserts (Z.to_nat (_pos w)) bs (_buffer w);
                        _pos := _pos w + Z.of_nat (length bs);
                        _endianness := BE |})
          /\ writeInt v opts (with_endianness LE w)
             = (inr tt, {| _buffer := list_inserts (Z.to_nat (_pos w)) (reverse bs)
                                        (_buffer w);
                           _pos := _pos w + Z.of_nat (length bs);
                           _endianness := LE |})).
Proof.
  split_and!.
  - intros r opts. apply endian_blind_writeRaw.
  - intros s opts. unfold writeString; simpl. apply endian_blind_writeString_body.
  - intros v opts Hpos Hok.
    destruct (writeInt_type (_methods (with_endianness BE w)) v opts) as [err | m] eqn:Hsel.
    { unfold writeInt in Hok. by rewrite Hsel in Hok. }
    assert (Hsel' : writeInt_type (_methods (with_endianness LE w)) v opts
                    = inr (retarget LE m)) by (eapply select_retarget, Hsel).
    assert (Hm : m = retarget BE m).
    { apply (select_retarget BE BE) in Hsel as Hsame. unfold _methods in Hsel.
      simpl in Hsel. congruence. }
    destruct (writeInt_success _ v opts m Hsel Hpos) as [Hiff Hstate].
    destruct (writeInt_success _ v opts _ Hsel' Hpos) as [Hiff' Hstate'].
    assert (Hok' : fst (writeInt v opts (with_endianness LE w)) = inr tt).
    { apply Hiff'. apply Hiff in Hok. simpl in *.
      unfold remaining, length_ in *. simpl in *.
      destruct (method m); simpl in *; lia. }
    apply writeInt_type_in_table, table_consistent in Hsel as (Hlen & _ & _).
    exists (Buffer.encode (method m) v).
    rewrite length_encode, <- Hlen. split.
    + rewrite (surjective_pairing (writeInt v opts (with_endianness BE w))).
      by rewrite Hok, (Hstate Hok).
    + rewrite (surjective_pairing (writeInt v opts (with_endianness LE w))).
      rewrite Hok', (Hstate' Hok'). simpl.
      rewrite Hm at 3. simpl. by rewrite encode_retarget.
Qed.

Lemma X7_endianness_witness :
  exists bs : list Z,
    writeInt 300 None (with_endianness BE (initialize 2 None))
    = (inr tt, {| _buffer := list_inserts 0 bs [0; 0]; _pos := 0 + Z.of_nat (length bs);
                  _endianness := BE |})
    /\ writeInt 300 None (with_endianness LE (initialize 2 None))
       = (inr tt, {| _buffer := list_inserts 0 (reverse bs) [0; 0];
                     _pos := 0 + Z.of_nat (length bs); _endianness := LE |}).
Proof.
  assert (Hpos : 0 <= _pos (initialize 2 None)) by (simpl; lia).
  assert (Hok : fst (writeInt 300 None (with_endianness BE (initialize 2 None))) = inr tt)
    by (vm_compute; reflexivity).
  destruct (X7_endianness (initialize 2 None) BE) as (_ & _ & Hint).
  exact (Hint 300 None Hpos Hok).
Defined.

(** ** Writes only append *)

Lemma appended_refl (w : BitWriter) : appended w w.
Proof. intros _. split; [lia | done]. Qed.

Lemma appended_trans (w1 w2 w3 : BitWriter) :
  appended w1 w2 -> appended w2 w3 -> appended w1 w3.
Proof.
  intros H12 H23 Hpos. destruct (H12 Hpos) as [Hle12 Hk12].
  destruct (H23 ltac:(lia)) as [Hle23 Hk23].
  split; [lia |]. intros k Hk. rewrite Hk23 by lia. by apply Hk12.
Qed.

Lemma _copyBuffer_appended (buf : list Z) : preserves appended (_copyBuffer buf).
Proof.
  intros w Hpos. unfold _copyBuffer, bind, get_position, on_buffer, Buffer.copy.
  destruct (_ || _).
  - unfold move, bind, get_position; simpl. rewrite position_spec.
    destruct (_ && _); simpl; split; try done; lia.
  - destruct (_ || _); simpl; [split; [lia | done] |].
    unfold move, bind, get_position; simpl. rewrite position_spec.
    destruct (_ && _); simpl; (split; [lia |]);
      intros i Hi; apply list_lookup_inserts_lt; lia.
Qed.

Lemma writeInt_appended (v : Z) (opts : option (gmap string jsval)) :
  preserves appended (writeInt v opts).
Proof.
  intros w Hpos.
  destruct (writeInt_type (_methods w) v opts) as [err | m] eqn:Hsel.
  { unfold writeInt. rewrite Hsel. simpl. split; [lia | done]. }
  rewrite (writeInt_selected v opts w m Hsel).
  apply writeInt_type_in_table, byte_length_pos in Hsel.
  destruct (_ <? _); [simpl; split; [lia | done] |].
  unfold Buffer.write.
  destruct (negb _); [simpl; split; [lia | done] |].
  destruct (negb _); [simpl; split; [lia | done] |].
  cbn beta iota. rewrite position_spec.
  destruct (_ && _); simpl; (split; [lia |]);
    intros i Hi; apply list_lookup_inserts_lt; lia.
Qed.

Lemma writeRaw_safe_appended (arry : list jsval) : preserves appended (writeRaw_safe arry).
Proof.
  induction arry as [| x rest IH]; intros w; [apply appended_refl |].
  simpl. unfold bind at 1 2, post_increment_pos, on_buffer. cbn [_buffer _pos _endianness].
  destruct (Buffer.write writeUInt8 (_buffer w) x (_pos w)) as [err | b] eqn:Hw.
  - intros Hpos. simpl. split; [lia | done].
  - eapply appended_trans; [| apply IH].
    intros Hpos. simpl. split; [lia |].
    unfold Buffer.write in Hw. repeat case_match; simplify_eq.
    intros i Hi. apply list_lookup_inserts_lt. lia.
Qed.

Lemma writeString_body_appended (s : string) (o : gmap string jsval) :
  preserves appended (writeString_body s o).
Proof.
  unfold writeString_body. destruct (truthy (prop o "size")).
  - destruct (_ <? _).
    + destruct (Buffer.slice _ _ _); [intros w; apply appended_refl |].
      apply _copyBuffer_appended.
    + apply _copyBuffer_appended.
  - intros w. destruct (_ <? _); [apply appended_refl |].
    revert w. apply preserves_bind; [apply appended_trans | apply _copyBuffer_appended |].
    intros _ w. destruct (_ && _); [apply _copyBuffer_appended | apply appended_refl].
Qed.

(** X8: no write operation, whether it succeeds or fails, moves the cursor
    backwards or changes a byte that lies before the cursor: what has been
    written is never overwritten by a later write. *)
Theorem X8_append_only (d : data) (opts : option (gmap string jsval)) (w : BitWriter) :
  0 <= _pos w ->
  _pos w <= _pos (snd (fst (write d opts w)))
  /\ forall k : nat,
       Z.of_nat k < _pos w ->
       _buffer (snd (fst (write d opts w))) !! k = _buffer w !! k.
Proof.
  revert w. change (preserves appended (fun w => fst (write d opts w))).
  destruct d as [s | [b | l] | v]; simpl.
  - apply writeString_body_appended.
  - apply _copyBuffer_appended.
  - case_match; [apply writeRaw_safe_appended |].
    case_match; intros w; apply appended_refl.
  - apply writeInt_appended.
Qed.

Lemma X8_append_only_witness :
  _buffer (snd (fst (write (Str "abc") None
                       (snd (fst (write (Num 7) None (initialize 2 None))))))) !! 0%nat
  = _buffer (snd (fst (write (Num 7) None (initialize 2 None)))) !! 0%nat.
Proof.
  assert (Hpos : 0 <= _pos (snd (fst (write (Num 7) None (initialize 2 None)))))
    by (vm_compute; discriminate).
  apply (X8_append_only (Str "abc") None _ Hpos). vm_compute. reflexivity.
Defined.

(** ** Successive writes *)

Lemma from_string_app (s t : string) :
  Buffer.from_string (s +:+ t) = Buffer.from_string s ++ Buffer.from_string t.
Proof. induction s as [| a s IH]; simpl; [done | by rewrite IH]. Qed.

(** X9: buffers written one after the other land as their concatenation:
    when both fit, [writeRaw(a)] followed by [writeRaw(b)] leaves the writer
    exactly as [writeRaw] of [a] followed by [b] does; likewise two string
    writes without size and with [null: false] act as one write of the
    concatenated text. *)
Theorem X9_writes_concatenate (w : BitWriter) :
  0 <= _pos w ->
  (forall (a b : list Z) (o1 o2 o3 : option (gmap string jsval)),
     Z.of_nat (length a) + Z.of_nat (length b) <= remaining w ->
     (writeRaw (Buf a) o1 ;;; writeRaw (Buf b) o2) w = writeRaw (Buf (a ++ b)) o3 w)
  /\ (forall (s t : string) (opts : option (gmap string jsval)),
        truthy (opt_prop opts "size") = false ->
        opt_prop opts "null" = JBool false ->
        Z.of_nat (length (Buffer.from_string s))
          + Z.of_nat (length (Buffer.from_string t)) <= remaining w ->
        fst (writeString t opts (snd (fst (writeString s opts w))))
        = fst (writeString (s +:+ t) opts w)).
Proof.
  intros Hpos.
  assert (Htwo : forall a b : list Z,
            Z.of_nat (length a) + Z.of_nat (length b) <= remaining w ->
            (_copyBuffer a ;;; _copyBuffer b) w = _copyBuffer (a ++ b) w).
  { intros a b Hfit. unfold bind.
    rewrite (_copyBuffer_fits a w) by lia.
    rewrite _copyBuffer_fits;
      [| simpl; lia
       | unfold remaining, length_ in *; simpl; rewrite length_inserts; lia].
    rewrite (_copyBuffer_fits (a ++ b) w) by (rewrite ?length_app; lia).
    simpl. rewrite list_inserts_app_l, length_app.
    replace (Z.to_nat (_pos w + Z.of_nat (length a)))
      with (length a + Z.to_nat (_pos w))%nat by lia.
    do 2 f_equal. lia. }
  split.
  - intros a b o1 o2 o3 Hfit. by apply Htwo.
  - intros s t opts Hsz Hnull Hfit.
    assert (Hbody : forall (u : string) (w0 : BitWriter),
              0 <= _pos w0 ->
              Z.of_nat (length (Buffer.from_string u)) <= remaining w0 ->
              fst (writeString u opts w0) = _copyBuffer (Buffer.from_string u) w0).
    { intros u w0 Hp Hf. unfold writeString; simpl.
      rewrite writeString_unsized by (by rewrite ?resolved_size).
      cbv zeta. rewrite resolved_terminator. unfold terminator.
      rewrite bool_decide_eq_true_2 by done.
      destruct (Z.ltb_spec (remaining w0) (Z.of_nat (length (Buffer.from_string u))));
        [lia |].
      rewrite _copyBuffer_fits by done. rewrite app_nil_r. simpl.
      do 2 f_equal. lia. }
    rewrite (Hbody s w) by lia.
    rewrite (Hbody (s +:+ t) w) by (rewrite ?from_string_app, ?length_app; lia).
    rewrite from_string_app, <- Htwo by done.
    unfold bind. rewrite (_copyBuffer_fits (Buffer.from_string s) w) by lia.
    simpl. apply Hbody; [simpl; lia |].
    unfold remaining, length_ in *; simpl. rewrite length_inserts. lia.
Qed.

Lemma X9_writes_concatenate_witness :
  (writeRaw (Buf [1; 2]) None ;;; writeRaw (Buf [3]) None) (initialize 4 None)
  = writeRaw (Buf ([1; 2] ++ [3])) None (initialize 4 None).
Proof.
  assert (Hpos : 0 <= _pos (initialize 4 None)) by (simpl; lia).
  apply (X9_writes_concatenate (initialize 4 None) Hpos).
  vm_compute. discriminate.
Defined.

(** ** The unchecked array write *)

Lemma writeRaw_safe_bytes (l : list Z) (w : BitWriter) :
  0 <= _pos w ->
  Forall (fun z => 0 <= z <= 0xff) l ->
  Z.of_nat (length l) <= remaining w ->
  writeRaw_safe (JNum <$> l) w =
    (inr tt, {| _buffer := list_inserts (Z.to_nat (_pos w)) l (_buffer w);
                _pos := _pos w + Z.of_nat (length l);
                _endianness := _endianness w |}).
Proof.
  intros Hpos Hl. revert w Hpos.
  induction Hl as [| z l Hz _ IH]; intros w Hpos Hfit.
  { simpl. unfold ret. destruct w; simpl. do 2 f_equal. lia. }
  cbn [fmap list_fmap writeRaw_safe].
  unfold bind at 1 2, post_increment_pos, on_buffer, Buffer.write.
  cbn [_buffer _pos _endianness Buffer.width Buffer.lower Buffer.upper].
  unfold remaining, length_ in Hfit. cbn [length] in Hfit.
  destruct (Z.leb_spec 0 (_pos w)); [| lia].
  destruct (Z.leb_spec (_pos w + Z.of_nat 1) (Z.of_nat (length (_buffer w)))); [| lia].
  destruct (Z.leb_spec 0 z); [| lia].
  destruct (Z.leb_spec z 255); [| lia].
  cbn [andb negb]. unfold Buffer.encode; cbn [Buffer.order Buffer.width Buffer.le_bytes].
  rewrite Z.mod_small by lia.
  change (reverse [z]) with [z]. cbn [list_inserts].
  rewrite IH;
    [| simpl; lia
     | unfold remaining, length_; simpl; rewrite length_insert; lia].
  cbn [_buffer _pos _endianness length].
  replace (Z.to_nat (_pos w + 1)) with (S (Z.to_nat (_pos w))) by lia.
  rewrite <- list_insert_inserts_lt by lia.
  do 2 f_equal. lia.
Qed.

Lemma write_uint8_ok (b : list Z) (z p : Z) :
  0 <= p -> p + 1 <= Z.of_nat (length b) -> 0 <= z <= 0xff ->
  Buffer.write writeUInt8 b (JNum z) p = inr (<[Z.to_nat p := z]> b).
Proof.
  intros Hp Hfit Hz. unfold Buffer.write.
  cbn [Buffer.width Buffer.lower Buffer.upper].
  destruct (Z.leb_spec 0 p); [| lia].
  destruct (Z.leb_spec (p + Z.of_nat 1) (Z.of_nat (length b))); [| lia].
  destruct (Z.leb_spec 0 z); [| lia].
  destruct (Z.leb_spec z 255); [| lia].
  cbn [andb negb]. unfold Buffer.encode; cbn [Buffer.order Buffer.width Buffer.le_bytes].
  by rewrite Z.mod_small by lia.
Qed.

Lemma write_uint8_fails (b : list Z) (x : jsval) (p : Z) :
  (forall z, x = JNum z -> ~ (0 <= z <= 0xff)) \/ Z.of_nat (length b) <= p ->
  Buffer.write writeUInt8 b x p = inl HostError.
Proof.
  intros Hbad. unfold Buffer.write.
  cbn [Buffer.width Buffer.lower Buffer.upper].
  destruct (Z.leb_spec 0 p); [| done].
  destruct (Z.leb_spec (p + Z.of_nat 1) (Z.of_nat (length b))); [| done].
  destruct Hbad as [Hbad | Hbad]; [| lia].
  destruct x as [| c | v]; try done. cbn [andb negb].
  specialize (Hbad v eq_refl).
  destruct (Z.leb_spec 0 v), (Z.leb_spec v 255); simpl; try done. lia.
Qed.

Lemma writeRaw_safe_stops (l1 : list Z) (x : jsval) (l2 : list jsval) (w : BitWriter) :
  0 <= _pos w ->
  Forall (fun z => 0 <= z <= 0xff) l1 ->
  Z.of_nat (length l1) <= remaining w ->
  (forall z, x = JNum z -> ~ (0 <= z <= 0xff)) \/ Z.of_nat (length l1) = remaining w ->
  writeRaw_safe ((JNum <$> l1) ++ x :: l2) w =
    (inl HostError,
     {| _buffer := list_inserts (Z.to_nat (_pos w)) l1 (_buffer w);
        _pos := _pos w + Z.of_nat (length l1) + 1;
        _endianness := _endianness w |}).
Proof.
  intros Hpos Hl. revert w Hpos.
  induction Hl as [| z l Hz _ IH]; intros w Hpos Hfit Hbad.
  - cbn [fmap list_fmap app writeRaw_safe length list_inserts].
    unfold bind at 1 2, post_increment_pos, on_buffer.
    cbn [_buffer _pos _endianness].
    rewrite write_uint8_fails.
    + simpl. do 2 f_equal. lia.
    + unfold remaining, length_ in Hbad. cbn [length] in Hbad.
      destruct Hbad as [Hbad | Hbad]; [by left | right; lia].
  - cbn [fmap list_fmap app writeRaw_safe].
    unfold bind at 1 2, post_increment_pos, on_buffer.
    cbn [_buffer _pos _endianness].
    unfold remaining, length_ in Hfit, Hbad. cbn [length] in Hfit, Hbad.
    rewrite write_uint8_ok by lia.
    rewrite IH;
      [| simpl; lia
       | unfold remaining, length_; simpl; rewrite length_insert; lia
       | destruct Hbad as [Hbad | Hbad]; [by left | right];
         unfold remaining, length_; simpl; rewrite length_insert; lia].
    cbn [_buffer _pos _endianness length list_inserts].
    replace (Z.to_nat (_pos w + 1)) with (S (Z.to_nat (_pos w))) by lia.
    rewrite <- list_insert_inserts_lt by lia.
    do 2 f_equal. lia.
Qed.

(** X10: when the caller's promise holds, that is every element is a
    number in [0, 255], and the array fits, [writeRaw] with [safe: true]
    stores the elements at the cursor and advances it by their number,
    exactly as [writeRaw] of a buffer holding the same bytes. *)
Theorem X10_safe_array_write (w : BitWriter) (l : list Z) (opts : option (gmap string jsval)) :
  0 <= _pos w ->
  opt_prop opts "safe" = JBool true ->
  Forall (fun z => 0 <= z <= 0xff) l ->
  Z.of_nat (length l) <= remaining w ->
  writeRaw (Arr (JNum <$> l)) opts w =
    (inr tt, {| _buffer := list_inserts (Z.to_nat (_pos w)) l (_buffer w);
                _pos := _pos w + Z.of_nat (length l);
                _endianness := _endianness w |})
  /\ writeRaw (Arr (JNum <$> l)) opts w = writeRaw (Buf l) None w.
Proof.
  intros Hpos Hsafe Hl Hfit.
  assert (Hrun : writeRaw (Arr (JNum <$> l)) opts w =
            (inr tt, {| _buffer := list_inserts (Z.to_nat (_pos w)) l (_buffer w);
                        _pos := _pos w + Z.of_nat (length l);
                        _endianness := _endianness w |})).
  { unfold writeRaw. rewrite bool_decide_eq_true_2 by done.
    by apply writeRaw_safe_bytes. }
  split; [done |]. rewrite Hrun. simpl. by rewrite _copyBuffer_fits.
Qed.

Lemma X10_safe_array_write_witness :
  writeRaw (Arr (JNum <$> [9; 8])) (Some {["safe" := JBool true]}) (initialize 3 None)
  = (inr tt, {| _buffer := [9; 8; 0]; _pos := 2; _endianness := BE |}).
Proof.
  assert (Hpos : 0 <= _pos (initialize 3 None)) by (simpl; lia).
  assert (Hsafe : opt_prop (Some {["safe" := JBool true]}) "safe" = JBool true)
    by (vm_compute; reflexivity).
  assert (Hl : Forall (fun z => 0 <= z <= 0xff) [9; 8]) by (repeat constructor; lia).
  assert (Hfit : Z.of_nat (length [9; 8]) <= remaining (initialize 3 None))
    by (vm_compute; discriminate).
  rewrite (proj1 (X10_safe_array_write _ _ _ Hpos Hsafe Hl Hfit)). reflexivity.
Defined.

(** X11: [writeRaw] with [safe: true] is not all-or-nothing: when the
    elements before some position are bytes that fit, and the element at
    that position is not a number in [0, 255] or finds the buffer full, the
    call throws the platform's error after having stored the preceding
    elements, and leaves the cursor one past the failing position. *)
Theorem X11_safe_array_partial (w : BitWriter) (l1 : list Z) (x : jsval) (l2 : list jsval)
    (opts : option (gmap string jsval)) :
  0 <= _pos w ->
  opt_prop opts "safe" = JBool true ->
  Forall (fun z => 0 <= z <= 0xff) l1 ->
  Z.of_nat (length l1) <= remaining w ->
  (forall z, x = JNum z -> ~ (0 <= z <= 0xff)) \/ Z.of_nat (length l1) = remaining w ->
  writeRaw (Arr ((JNum <$> l1) ++ x :: l2)) opts w =
    (inl HostError,
     {| _buffer := list_inserts (Z.to_nat (_pos w)) l1 (_buffer w);
        _pos := _pos w + Z.of_nat (length l1) + 1;
        _endianness := _endianness w |}).
Proof.
  intros Hpos Hsafe Hl Hfit Hbad.
  unfold writeRaw. rewrite bool_decide_eq_true_2 by done.
  by apply writeRaw_safe_stops.
Qed.

Lemma X11_safe_array_partial_witness :
  writeRaw (Arr ((JNum <$> [5]) ++ JNum (-1) :: [JNum 6]))
    (Some {["safe" := JBool true]}) (initialize 3 None)
  = (inl HostError, {| _buffer := [5; 0; 0]; _pos := 2; _endianness := BE |}).
Proof.
  assert (Hpos : 0 <= _pos (initialize 3 None)) by (simpl; lia).
  assert (Hsafe : opt_prop (Some {["safe" := JBool true]}) "safe" = JBool true)
    by (vm_compute; reflexivity).
  assert (Hl : Forall (fun z => 0 <= z <= 0xff) [5]) by (repeat constructor; lia).
  assert (Hfit : Z.of_nat (length [5]) <= remaining (initialize 3 None))
    by (vm_compute; discriminate).
  assert (Hbad : (forall z, JNum (-1) = JNum z -> ~ (0 <= z <= 0xff))
                 \/ Z.of_nat (length [5]) = remaining (initialize 3 None)).
  { left. intros z [= <-]. lia. }
  rewrite (X11_safe_array_partial _ _ _ _ _ Hpos Hsafe Hl Hfit Hbad). reflexivity.
Defined.

(** ** Buffers that do not fit *)

Lemma _copyBuffer_overflow (buf : list Z) (w : BitWriter) :
  0 <= _pos w < length_ w ->
  remaining w < Z.of_nat (length buf) ->
  _copyBuffer buf w =
    (inl RangeError,
     {| _buffer := list_inserts (Z.to_nat (_pos w))
                     (take (Z.to_nat (remaining w)) buf) (_buffer w);
        _pos := _pos w;
        _endianness := _endianness w |}).
Proof.
  intros Hpos Hbig. unfold remaining, length_ in *.
  unfold _copyBuffer, bind, get_position, on_buffer, Buffer.copy.
  destruct (Nat.eqb_spec (length buf) 0); [lia |].
  destruct (Nat.eqb_spec (length (_buffer w)) 0); [lia |].
  destruct (Z.ltb_spec (_pos w) 0); [lia |].
  destruct (Z.leb_spec (Z.of_nat (length (_buffer w))) (_pos w)); [lia |].
  cbn [orb]. unfold move, bind, get_position. cbn [_buffer _pos _endianness].
  rewrite position_spec. unfold length_; cbn [_buffer _pos _endianness].
  rewrite length_inserts.
  destruct (Z.leb_spec 0 (_pos w + Z.of_nat (length buf))); [| lia].
  destruct (Z.leb_spec (_pos w + Z.of_nat (length buf)) (Z.of_nat (length (_buffer w))));
    [lia |].
  cbn [andb]. do 4 f_equal. lia.
Qed.

Lemma writeString_sized_copy (s : string) (o : gmap string jsval) (N : Z) :
  prop o "size" = JNum N ->
  0 < N ->
  writeString_body s o =
    _copyBuffer (if N <? Z.of_nat (length (Buffer.from_string s))
                 then take (Z.to_nat N) (Buffer.from_string s)
                 else Buffer.from_string s
                      ++ replicate (Z.to_nat (N - Z.of_nat (length (Buffer.from_string s)))) 0).
Proof.
  intros Hsz HN. unfold writeString_body. rewrite Hsz.
  cbn [truthy to_number]. destruct (Z.eqb_spec N 0); [lia |]. cbn [negb]. cbv zeta.
  generalize (Buffer.from_string s). intros text.
  destruct (Z.ltb_spec N (Z.of_nat (length text))).
  - unfold Buffer.slice.
    destruct (Z.ltb_spec (Z.of_nat (length text)) N); [lia |].
    destruct (Z.ltb_spec N 0); [lia |].
    rewrite Z.sub_0_r. change (Z.to_nat 0) with 0%nat. by rewrite drop_0.
  - unfold Buffer.concat, Buffer.zeroed. simpl mjoin. by rewrite app_nil_r.
Qed.

(** X12: a buffer longer than what remains, written at a cursor inside the
    buffer, is copied as far as it fits, so that the whole tail of the
    writer's buffer is overwritten with its first bytes, and the call then
    fails with a range error (not an overflow error) with the cursor where
    it was; a string written with a size larger than what remains fails in
    the same way. *)
Theorem X12_oversized_buffer (w : BitWriter) :
  0 <= _pos w < length_ w ->
  let cut (b : list Z) :=
    (inl RangeError,
     {| _buffer := list_inserts (Z.to_nat (_pos w))
                     (take (Z.to_nat (remaining w)) b) (_buffer w);
        _pos := _pos w;
        _endianness := _endianness w |}) in
  (forall (b : list Z) (opts : option (gmap string jsval)),
     remaining w < Z.of_nat (length b) ->
     writeRaw (Buf b) opts w = cut b
     /\ window (snd (writeRaw (Buf b) opts w)) (_pos w) (remaining w)
        = take (Z.to_nat (remaining w)) b)
  /\ (forall (s : string) (o : gmap string jsval) (N : Z),
        prop o "size" = JNum N ->
        remaining w < N ->
        let text := Buffer.from_string s in
        fst (writeString s (Some o) w) =
          cut (if N <? Z.of_nat (length text) then take (Z.to_nat N) text
               else text ++ replicate (Z.to_nat (N - Z.of_nat (length text))) 0)).
Proof.
  intros Hpos cut. split.
  - intros b opts Hbig.
    assert (Hrun : writeRaw (Buf b) opts w = cut b) by by apply _copyBuffer_overflow.
    split; [done |]. rewrite Hrun. unfold cut, window; simpl.
    assert (Hlen : length (take (Z.to_nat (remaining w)) b) = Z.to_nat (remaining w)).
    { rewrite length_take_le; [done |]. unfold remaining in *. lia. }
    rewrite <- Hlen at 1. apply window_inserts; [lia |].
    rewrite Hlen. unfold remaining in *. lia.
  - intros s o N Hsz Hbig text. unfold writeString; simpl.
    assert (HN : 0 < N) by (unfold remaining in *; lia).
    rewrite (writeString_sized_copy s _ N); [| by rewrite resolved_size | done].
    fold text. apply _copyBuffer_overflow; [done |].
    destruct (Z.ltb_spec N (Z.of_nat (length text))).
    + rewrite length_take_le; lia.
    + rewrite length_app, length_replicate. lia.
Qed.

Lemma X12_oversized_buffer_witness :
  writeRaw (Buf [1; 2; 3]) None (initialize 2 None)
  = (inl RangeError, {| _buffer := [1; 2]; _pos := 0; _endianness := BE |}).
Proof.
  assert (Hpos : 0 <= _pos (initialize 2 None) < length_ (initialize 2 None))
    by (vm_compute; split; [discriminate | reflexivity]).
  destruct (X12_oversized_buffer (initialize 2 None) Hpos) as [Hbuf _].
  rewrite (proj1 (Hbuf [1; 2; 3] None ltac:(vm_compute; reflexivity))). reflexivity.
Defined.

(** ** Reading bytes back by index *)

(** X13: after a buffer has been written with room to spare, the indexed
    read returns, at every offset of the written window, the corresponding
    byte of the buffer that was written, and at every other offset what it
    returned before the write. *)
Theorem X13_read_back (w : BitWriter) (b : list Z) (opts : option (gmap string jsval))
    (k : nat) :
  0 <= _pos w ->
  Z.of_nat (length b) <= remaining w ->
  _makeArrayLike_get k (snd (writeRaw (Buf b) opts w)) =
    if bool_decide (_pos w <= Z.of_nat k < _pos w + Z.of_nat (length b))
    then b !! (k - Z.to_nat (_pos w))%nat
    else _makeArrayLike_get k w.
Proof.
  intros Hpos Hfit. simpl. rewrite _copyBuffer_fits by done.
  unfold _makeArrayLike_get, Buffer.get; simpl. rewrite length_inserts.
  unfold remaining, length_ in Hfit.
  case_bool_decide as Hlt; case_bool_decide as Hwin; try lia.
  - apply list_lookup_inserts; lia.
  - destruct (decide (Z.of_nat k < _pos w)).
    + apply list_lookup_inserts_lt. lia.
    + apply list_lookup_inserts_ge. lia.
  - done.
Qed.

Lemma X13_read_back_witness :
  _makeArrayLike_get 2 (snd (writeRaw (Buf [7; 8]) None
                               (snd (writeRaw (Buf [1]) None (initialize 4 None)))))
  = [7; 8] !! 1%nat.
Proof.
  assert (Hpos : 0 <= _pos (snd (writeRaw (Buf [1]) None (initialize 4 None))))
    by (vm_compute; discriminate).
  assert (Hfit : Z.of_nat (length [7; 8])
                 <= remaining (snd (writeRaw (Buf [1]) None (initialize 4 None))))
    by (vm_compute; discriminate).
  rewrite (X13_read_back _ [7; 8] None 2 Hpos Hfit). reflexivity.
Defined.
